(** * IapticStripe: credential store, catalog cache and refresh scheduler

    A shallow embedding of the [IapticStripe] class and of its
    [IapticStripe.RefreshScheduler] helper, followed by the
    properties of the specification that concern them. The constructor, the
    checkout, portal and plan-change calls and the formatting of billing
    periods are embedded too, with properties of their own.

    Modelling conventions.
    - JavaScript values that may be [null]/[undefined] are [option]s; the
      truthiness test of the source ([!x], [a || b]) is [truthy]/[js_or]: an
      absent value and the empty string are falsy.
    - The access keys are kept in a plain object used as a map. Reading
      [keys[id]] finds the own property, a string, or else the member of
      that name inherited from [Object.prototype], a function or an object
      ([Value], [index]); writing [keys[id] = key] sets the own property,
      except for "__proto__", where it runs the inherited setter ([assign]).
      [Object.prototype] is taken as the language defines it (no page script
      has added to it).
    - [localStorage] is the record [LocalStorage], one slot per key the class
      uses, each holding the decoded JSON value (the class is the only writer
      of these keys and always writes [JSON.stringify] of the shapes read
      back). Storage is taken to be available (no quota or security error).
    - Time is in milliseconds, a [Z] ([Date.now()], [Date.prototype.getTime]).
      One synchronous run of the code reads one clock value. A [Date] built
      from a number holds it only within 8.64e15 ms of the epoch and is an
      Invalid Date beyond ([TimeClip]).
    - Schedule objects are mutable and shared between [this.schedules] and the
      closures given to the browser's [setTimeout]; they live in [heap] and
      both [schedules] and [timers] hold references (indices) into it.
    - An [async] function is cut at its [await] of [fetch]: a [_begin] part
      that runs up to the request and an [_end] part that runs on the
      response. The scheduler's timers and responses are the events of
      [step]. *)

From stdpp Require Import base strings list gmap pretty.
From Stdlib Require Import ZArith Lia Ascii.

Local Open Scope Z_scope.

(** ** JavaScript helpers *)

Module JS.

(** [!!x] for a string that may be [null]/[undefined]. *)
Definition truthy (x : option string) : bool :=
  match x with
  | Some s => negb (bool_decide (s = ""))
  | None => false
  end.

(** [a || b]. *)
Definition js_or (a b : option string) : option string :=
  if truthy a then a else b.

(** [s.startsWith(p)]. *)
Definition startsWith (s p : string) : bool := String.prefix p s.

(** Property key used by [obj[x]]: [null] is coerced to the string "null". *)
Definition propertyKey (x : option string) : string :=
  match x with
  | Some s => s
  | None => "null"
  end.

(** A value read from an object whose own properties are strings: such a
    string, or a member the object inherits from [Object.prototype] (a
    function, or the prototype itself for [__proto__]), named by its
    property. *)
Inductive Value :=
| Str (s : string)
| Inherited (name : string).

Coercion Str : string >-> Value.

#[global] Instance Value_eq_dec : EqDecision Value.
Proof. solve_decision. Defined.

(** The properties of [Object.prototype]: every object literal and every
    object made by [JSON.parse] inherits them. *)
Definition Object_prototype : list string :=
  ["constructor"; "__defineGetter__"; "__defineSetter__"; "hasOwnProperty";
   "__lookupGetter__"; "__lookupSetter__"; "isPrototypeOf";
   "propertyIsEnumerable"; "toString"; "valueOf"; "__proto__";
   "toLocaleString"].

(** [!!v]: a function or an object is truthy. *)
Definition truthy_value (v : option Value) : bool :=
  match v with
  | Some (Str s) => negb (bool_decide (s = ""))
  | Some (Inherited _) => true
  | None => false
  end.

(** [a || b] on such values. *)
Definition or_value (a b : option Value) : option Value :=
  if truthy_value a then a else b.

(** [obj[x]] on an object used as a map of strings: the own property, else
    the inherited member of that name, else [undefined]. *)
Definition index (obj : gmap string string) (x : option string) : option Value :=
  match obj !! propertyKey x with
  | Some s => Some (Str s)
  | None =>
      if bool_decide (propertyKey x ∈ Object_prototype)
      then Some (Inherited (propertyKey x))
      else None
  end.

(** [obj[key] = value] for a string [value]: the own property [key] is set,
    unless [key] is [__proto__] and the object has no own property of that
    name: the assignment then runs the inherited setter, which ignores a
    string. *)
Definition assign (obj : gmap string string) (key value : string)
  : gmap string string :=
  if bool_decide (key = "__proto__" ∧ obj !! key = None) then obj
  else <[key := value]> obj.

(** The time values a [Date] can hold: at most 8.64e15 ms either side of the
    epoch. *)
Definition max_time : Z := 8640000000000000.

Definition is_date (v : Z) : bool :=
  bool_decide (- max_time <= v <= max_time).

(** [new Date(v).getTime()] for a number [v]: [v], or [NaN] (here [None])
    when [v] is out of range, the [Date] being then an Invalid Date. *)
Definition TimeClip (v : Z) : option Z :=
  if is_date v then Some v else None.

End JS.

Import JS.

(** ** Data model (the JSDoc typedefs) *)

Inductive ProductType := subscription | consumable | non_consumable | paid_subscription.

Record PricingPhase := {
  priceMicros : Z;
  phase_currency : string;
  billingPeriod : string
}.

Record Offer := {
  offer_id : string;
  offer_platform : string;
  pricingPhases : list PricingPhase
}.

Record Product := {
  product_type : ProductType;
  product_id : string;
  title : string;
  offers : list Offer
}.

Inductive RenewalIntent := Renew | Cancel.

(** [expirationDate] holds [new Date(purchase.expirationDate).getTime()]:
    [None] when the ISO string does not parse (the source then computes with
    [NaN], and every comparison with [NaN] is false). A number out of the
    range of dates is no time value of a [Date] and is read as [NaN] too
    (see [schedulePurchaseRefreshes]). *)
Record Purchase := {
  purchaseId : string;
  transactionId : string;
  productId : string;
  expirationDate : option Z;
  renewalIntent : RenewalIntent;
  isTrialPeriod : bool
}.

Record CachedProducts := {
  products : list Product;
  fetchedAt : Z
}.

Record ScheduledRefresh := {
  id : string;
  subscriptionId : string;
  scheduledAt : Z;
  completed : bool;
  inProgress : bool;
  reason : string
}.

(** The four [localStorage] keys of the class. *)
Record LocalStorage := {
  iaptic_access_keys : option (gmap string string);
  iaptic_session_id : option string;
  iaptic_subscription_id : option string;
  iaptic_products : option CachedProducts
}.

(** Requests sent with [fetch]; [accessKey] is the value given to [buildUrl]
    as [access_key]. *)
Inductive Request :=
| GetPrices
| GetPurchases (ident : string) (accessKey : Value).

(** What the code does that leaves no mark in the data: requests sent, and,
    for the scheduler's timer callback, the call of [getPurchases] by the
    task, the "Skipping refresh" message and the "Error refreshing
    subscription" message. *)
Inductive Obs :=
| ObsFetch (q : Request)
| ObsLookup (r : nat)
| ObsSkip (r : nat)
| ObsError (r : nat).

Record State := {
  storage : LocalStorage;
  now : Z;
  heap : list ScheduledRefresh;
  schedules : list nat;
  timers : list nat;
  inflight : list nat;
  trace : list Obs
}.

Definition with_storage (ls : LocalStorage) (st : State) : State :=
  {| storage := ls; now := now st; heap := heap st; schedules := schedules st;
     timers := timers st; inflight := inflight st; trace := trace st |}.

Definition with_now (t : Z) (st : State) : State :=
  {| storage := storage st; now := t; heap := heap st; schedules := schedules st;
     timers := timers st; inflight := inflight st; trace := trace st |}.

Definition with_heap (h : list ScheduledRefresh) (st : State) : State :=
  {| storage := storage st; now := now st; heap := h; schedules := schedules st;
     timers := timers st; inflight := inflight st; trace := trace st |}.

Definition with_schedules (l : list nat) (st : State) : State :=
  {| storage := storage st; now := now st; heap := heap st; schedules := l;
     timers := timers st; inflight := inflight st; trace := trace st |}.

Definition with_timers (l : list nat) (st : State) : State :=
  {| storage := storage st; now := now st; heap := heap st; schedules := schedules st;
     timers := l; inflight := inflight st; trace := trace st |}.

Definition with_inflight (l : list nat) (st : State) : State :=
  {| storage := storage st; now := now st; heap := heap st; schedules := schedules st;
     timers := timers st; inflight := l; trace := trace st |}.

Definition log (o : Obs) (st : State) : State :=
  {| storage := storage st; now := now st; heap := heap st; schedules := schedules st;
     timers := timers st; inflight := inflight st; trace := trace st ++ [o] |}.

Definition empty_storage : LocalStorage :=
  {| iaptic_access_keys := None; iaptic_session_id := None;
     iaptic_subscription_id := None; iaptic_products := None |}.

(** A page just loaded at time [t] over the storage [ls]: the constructor
    has run, [this.schedules = []]. *)
Definition fresh (ls : LocalStorage) (t : Z) : State :=
  {| storage := ls; now := t; heap := []; schedules := []; timers := [];
     inflight := []; trace := [] |}.

(** ** Credential and identity store *)

Definition getSessionId (st : State) : option string :=
  iaptic_session_id (storage st).

Definition getSubscriptionId (st : State) : option string :=
  iaptic_subscription_id (storage st).

Definition _setSessionId (ident : string) (st : State) : State :=
  with_storage
    {| iaptic_access_keys := iaptic_access_keys (storage st);
       iaptic_session_id := Some ident;
       iaptic_subscription_id := iaptic_subscription_id (storage st);
       iaptic_products := iaptic_products (storage st) |} st.

Definition _setSubscriptionId (ident : string) (st : State) : State :=
  with_storage
    {| iaptic_access_keys := iaptic_access_keys (storage st);
       iaptic_session_id := iaptic_session_id (storage st);
       iaptic_subscription_id := Some ident;
       iaptic_products := iaptic_products (storage st) |} st.

Definition _getStoredAccessKeys (st : State) : gmap string string :=
  match iaptic_access_keys (storage st) with
  | Some keys => keys
  | None => ∅
  end.

Definition _storeAccessKey (ident accessKey : string) (st : State) : State :=
  let st1 := if startsWith ident "sub_" then _setSubscriptionId ident st else st in
  let storedKeys := _getStoredAccessKeys st1 in
  with_storage
    {| iaptic_access_keys := Some (assign storedKeys ident accessKey);
       iaptic_session_id := iaptic_session_id (storage st1);
       iaptic_subscription_id := iaptic_subscription_id (storage st1);
       iaptic_products := iaptic_products (storage st1) |} st1.

Definition getAccessKey (ident : option string) (st : State) : option Value :=
  let ident1 :=
    if truthy ident then ident else js_or (getSubscriptionId st) (getSessionId st) in
  if truthy ident1 then
    let keys := _getStoredAccessKeys st in
    or_value (index keys ident1) (or_value (index keys (getSessionId st)) None)
  else None.

(** ** Product catalog cache *)

Inductive Outcome (A : Type) :=
| Return (a : A)
| Throw (msg : string).
Arguments Return {A} a.
Arguments Throw {A} msg.

(** Result of the part of an [async] function that runs before its [fetch]:
    it has already returned, already thrown, or waits for the response. *)
Inductive Begun (A : Type) :=
| Resolved (a : A)
| Raised (msg : string)
| Awaiting.
Arguments Resolved {A} a.
Arguments Raised {A} msg.
Arguments Awaiting {A}.


Definition _getCachedProducts (st : State) : option CachedProducts :=
  iaptic_products (storage st).


Definition refreshProducts_begin (st : State) : Begun (list Product) * State :=
  match _getCachedProducts st with
  | Some cached =>
      if bool_decide (fetchedAt cached > now st - 60000)
      then (Resolved (products cached), st)
      else (Awaiting, log (ObsFetch GetPrices) st)
  | None => (Awaiting, log (ObsFetch GetPrices) st)
  end.


Definition getProducts_begin (st : State) : Begun (list Product) * State :=
  match _getCachedProducts st with
  | Some cached => (Resolved (products cached), st)
  | None => refreshProducts_begin st
  end.


#[global] Instance Request_eq_dec : EqDecision Request.
Proof. solve_decision. Defined.

#[global] Instance Obs_eq_dec : EqDecision Obs.
Proof. solve_decision. Defined.

Definition is_fetch (o : Obs) : bool :=
  match o with
  | ObsFetch _ => true
  | _ => false
  end.

(** Number of requests sent so far, of any kind and of the kind [q]. *)
Definition network_calls (st : State) : nat :=
  length (List.filter is_fetch (trace st)).


(** ** Refresh scheduler *)

(** [`${subscriptionId}-${date.getTime()}`]. *)
Definition mkId (sub : string) (date : Z) : string :=
  sub +:+ "-" +:+ pretty date.

(** The schedule object behind a reference; a dangling reference does not
    occur (see [wf]) and reads as no object. *)
Definition deref (st : State) (r : nat) : option ScheduledRefresh :=
  heap st !! r.

Definition with_inProgress (b : bool) (s : ScheduledRefresh) : ScheduledRefresh :=
  {| id := id s; subscriptionId := subscriptionId s; scheduledAt := scheduledAt s;
     completed := completed s; inProgress := b; reason := reason s |}.

Definition with_completed (b : bool) (s : ScheduledRefresh) : ScheduledRefresh :=
  {| id := id s; subscriptionId := subscriptionId s; scheduledAt := scheduledAt s;
     completed := b; inProgress := inProgress s; reason := reason s |}.

(** [schedule.inProgress = b] and [schedule.completed = b] on the object
    behind [r]. *)
Definition set_inProgress (r : nat) (b : bool) (st : State) : State :=
  with_heap (alter (with_inProgress b) r (heap st)) st.

Definition set_completed (r : nat) (b : bool) (st : State) : State :=
  with_heap (alter (with_completed b) r (heap st)) st.

(** [this.schedules.some(s => s.id === i)]. *)
Definition some_id (i : string) (st : State) : bool :=
  existsb (λ r, match deref st r with
                | Some s => bool_decide (id s = i)
                | None => false
                end) (schedules st).

(** [this.schedules.find(s => s.subscriptionId === sub && s.inProgress)],
    as the truth value the callback tests. *)
Definition find_inProgress (sub : string) (st : State) : bool :=
  existsb (λ r, match deref st r with
                | Some s => bool_decide (subscriptionId s = sub) && inProgress s
                | None => false
                end) (schedules st).

(** [RefreshScheduler.setTimeout(schedule)]: the part that runs at once. The
    callback is [timer_callback] below; arming the browser timer is adding
    the schedule to [timers]. *)
Definition setTimeout (r : nat) (st : State) : State :=
  match deref st r with
  | Some schedule =>
      let delay := scheduledAt schedule - now st in
      if bool_decide (delay <= 0) then st
      else with_timers (timers st ++ [r]) st
  | None => st
  end.

(** The object literal of [scheduleRefresh]; [date] stands for
    [date.getTime()] of a valid [Date]. The literal of a call that returns
    early is never stored, and gets no place in [heap]. *)
Definition new_schedule (sub : string) (date : Z) (why : string) : ScheduledRefresh :=
  {| id := mkId sub date; subscriptionId := sub; scheduledAt := date;
     completed := false; inProgress := false; reason := why |}.

Definition scheduleRefresh (sub : string) (date : Z) (why : string) (st : State)
  : State :=
  let schedule := new_schedule sub date why in
  if some_id (id schedule) st then st
  else
    let r := length (heap st) in
    setTimeout r
      (with_schedules (schedules st ++ [r]) (with_heap (heap st ++ [schedule]) st)).

(** The three [Date]s are their time values, [None] for an Invalid Date:
    [NaN - 10000] is [NaN], and [NaN > Date.now()] is false. *)
Definition schedulePurchaseRefreshes (purchase : Purchase) (st : State) : State :=
  let expiration := expirationDate purchase ≫= TimeClip in
  let beforeExpiration := expiration ≫= λ t, TimeClip (t - 10000) in
  let afterExpiration := expiration ≫= λ t, TimeClip (t + 10000) in
  let dates := [(beforeExpiration, "pre-expiration");
                (afterExpiration, "post-expiration")] in
  foldl (λ s '(date, why),
           match date with
           | Some t =>
               if bool_decide (t > now s)
               then scheduleRefresh (purchaseId purchase) t why s
               else s
           | None => s
           end) st dates.
Arguments schedulePurchaseRefreshes : simpl never.

(** Whether [schedulePurchaseRefreshes] calls [scheduleRefresh] for [date],
    one of the two instants of the expiration [T], at the time [t]: [T] and
    [date] are time values a [Date] can hold and [date] is after [t]. *)
Definition in_future (T date t : Z) : bool :=
  is_date T && is_date date && bool_decide (date > t).

Definition clearSchedules (st : State) : State :=
  with_schedules [] st.

Definition clearStoredData (st : State) : State :=
  clearSchedules (with_storage empty_storage st).

(** ** Purchase lookup *)

(** Response to [GET /v3/stripe/purchases/{id}]: the request fails, the
    status is not a success (with the [message] of the error body), or a JSON
    body [{ok, purchases, new_access_keys?}] arrives; [new_access_keys] in the
    order of [Object.entries]. *)
Inductive PurchasesResponse :=
| PurchasesFailed
| PurchasesStatus (message : option string)
| PurchasesBody (ok : bool) (purchases : list Purchase)
    (new_access_keys : option (list (string * string))).

Definition getPurchases_begin (ident accessKey : option string) (st : State)
  : Begun (list Purchase) * State :=
  let ident1 :=
    if truthy ident then ident else js_or (getSubscriptionId st) (getSessionId st) in
  let accessKey1 :=
    if truthy accessKey then Str <$> accessKey else getAccessKey ident1 st in
  match truthy ident1, ident1, truthy_value accessKey1, accessKey1 with
  | true, Some i, true, Some k => (Awaiting, log (ObsFetch (GetPurchases i k)) st)
  | true, Some i, _, _ =>
      (Raised ("No access key available for this ID (" +:+ i +:+ ")"), st)
  | _, _, _, _ => (Resolved [], st)
  end.

Definition getPurchases_end (resp : PurchasesResponse) (st : State)
  : Outcome (list Purchase) * State :=
  match resp with
  | PurchasesFailed => (Throw "Failed to fetch", st)
  | PurchasesStatus message =>
      (Throw (default "Failed to fetch subscription status"
                (js_or message (Some "Failed to fetch subscription status"))), st)
  | PurchasesBody false _ _ => (Throw "Invalid subscription status response", st)
  | PurchasesBody true purchases new_access_keys =>
      let st1 :=
        foldl (λ s purchase, schedulePurchaseRefreshes purchase s) st purchases in
      let st2 :=
        match new_access_keys with
        | Some entries =>
            foldl (λ s '(subId, newKey), _storeAccessKey subId newKey s) st1 entries
        | None => st1
        end in
      (Return purchases, st2)
  end.

(** ** The timer callback of [RefreshScheduler.setTimeout] *)

(** After [await getPurchases(...)] returns: [schedule.completed = true],
    then the [finally] block. *)
Definition on_success (r : nat) (st : State) : State :=
  set_inProgress r false (set_completed r true st).

(** After [await getPurchases(...)] throws: the [catch] block, then the
    [finally] block. *)
Definition on_failure (r : nat) (st : State) : State :=
  let st1 := log (ObsError r) st in
  let st2 :=
    match deref st1 r with
    | Some schedule =>
        if negb (startsWith (reason schedule) "retry-") then
          let retryDate := now st1 + 30000 in
          scheduleRefresh (subscriptionId schedule) retryDate
            ("retry-" +:+ reason schedule) st1
        else st1
    | None => st1
    end in
  set_inProgress r false st2.

(** The callback from its start to its [await]. When [getPurchases] settles
    without a request the rest of the callback follows with nothing of the
    scheduler in between. *)
Definition timer_callback (r : nat) (st : State) : State :=
  match deref st r with
  | None => st
  | Some schedule =>
      if completed schedule then st
      else if find_inProgress (subscriptionId schedule) st then log (ObsSkip r) st
      else
        let st1 := log (ObsLookup r) (set_inProgress r true st) in
        match getPurchases_begin (Some (subscriptionId schedule)) None st1 with
        | (Resolved _, st2) => on_success r st2
        | (Raised _, st2) => on_failure r st2
        | (Awaiting, st2) => with_inflight (inflight st2 ++ [r]) st2
        end
  end.

(** The callback from the response of its request to its end. *)
Definition timer_resume (r : nat) (resp : PurchasesResponse) (st : State) : State :=
  match getPurchases_end resp st with
  | (Return _, st1) => on_success r st1
  | (Throw _, st1) => on_failure r st1
  end.

(** ** Events

    The browser's events (the clock, a timer, a response) and the calls that
    touch the scheduler or the stored credentials. [getPurchases] and
    [changePlan] called by the page act on them through
    [schedulePurchaseRefreshes], [scheduleRefresh] and [_storeAccessKey]. *)

Definition remove (r : nat) (l : list nat) : list nat :=
  List.filter (λ x, negb (Nat.eqb x r)) l.

Inductive Event :=
| Tick (d : Z)
| Fire (r : nat)
| Settle (r : nat) (resp : PurchasesResponse)
| CallScheduleRefresh (sub : string) (date : Z) (why : string)
| CallSchedulePurchaseRefreshes (purchase : Purchase)
| CallClearSchedules
| CallClearStoredData
| CallSetSessionId (ident : string)
| CallStoreAccessKey (ident accessKey : string).

(** One event on a state; [None] when the event cannot happen there: the
    clock does not go back, a timer fires once, armed and not before its
    time, and a response answers a request that waits. *)
Definition step (e : Event) (st : State) : option State :=
  match e with
  | Tick d => if bool_decide (0 <= d) then Some (with_now (now st + d) st) else None
  | Fire r =>
      match deref st r with
      | Some schedule =>
          if bool_decide (r ∈ timers st) && bool_decide (scheduledAt schedule <= now st)
          then Some (timer_callback r (with_timers (remove r (timers st)) st))
          else None
      | None => None
      end
  | Settle r resp =>
      if bool_decide (r ∈ inflight st)
      then Some (timer_resume r resp (with_inflight (remove r (inflight st)) st))
      else None
  | CallScheduleRefresh sub date why => Some (scheduleRefresh sub date why st)
  | CallSchedulePurchaseRefreshes purchase => Some (schedulePurchaseRefreshes purchase st)
  | CallClearSchedules => Some (clearSchedules st)
  | CallClearStoredData => Some (clearStoredData st)
  | CallSetSessionId ident => Some (_setSessionId ident st)
  | CallStoreAccessKey ident accessKey => Some (_storeAccessKey ident accessKey st)
  end.

Fixpoint run (es : list Event) (st : State) : option State :=
  match es with
  | [] => Some st
  | e :: es' =>
      match step e st with
      | Some st' => run es' st'
      | None => None
      end
  end.

(** ** Reachable states and their invariant *)

(** Ids of the tasks of [this.schedules], in order. *)
Definition ids (st : State) : list string :=
  omap (λ r, id <$> deref st r) (schedules st).

(** Number of tasks of [this.schedules] whose id is [i]. *)
Definition count_id (i : string) (st : State) : nat :=
  length (List.filter (λ j, bool_decide (j = i)) (ids st)).

(** States the page reaches from its load. *)
Definition reachable (st : State) : Prop :=
  ∃ ls t es, run es (fresh ls t) = Some st.

Record wf (st : State) : Prop := {
  wf_schedules : Forall (λ r, (r < length (heap st))%nat) (schedules st);
  wf_timers : Forall (λ r, (r < length (heap st))%nat) (timers st);
  wf_inflight : Forall (λ r, (r < length (heap st))%nat) (inflight st);
  wf_ids : NoDup (ids st);
  wf_waiting : ∀ r, r ∈ inflight st →
    (r ∉ timers st) ∧
    ∃ s, deref st r = Some s ∧ completed s = false ∧ inProgress s = true
}.

(** The task an observation is about. *)
Definition subject (o : Obs) : option nat :=
  match o with
  | ObsFetch _ => None
  | ObsLookup r | ObsSkip r | ObsError r => Some r
  end.

(** Between [st0] and [st] the callback of the task [r] has not run: the
    task is as it was, no timer is armed for it, it waits for no response,
    and nothing was observed of it (no lookup, no skip, no error). *)
Definition not_run (r : nat) (st0 st : State) : Prop :=
  deref st r = deref st0 r ∧ (r ∉ timers st) ∧ (r ∉ inflight st) ∧
  ∃ tr, trace st = trace st0 ++ tr ∧ Forall (λ o, subject o ≠ Some r) tr.

(** [r] is a task of the schedule list with an armed timer, as
    [scheduleRefresh(sub, date, why)] creates it. *)
Definition registered (sub : string) (date : Z) (why : string) (r : nat)
    (st : State) : Prop :=
  r ∈ schedules st ∧ r ∈ timers st ∧
  deref st r = Some (new_schedule sub date why).

(** A response on which [getPurchases] throws. *)
Definition failing (resp : PurchasesResponse) : bool :=
  match resp with
  | PurchasesBody true _ _ => false
  | _ => true
  end.

(** At most one task of a subscription is in progress. *)
Definition exclusive (st : State) : Prop :=
  ∀ r1 r2 s1 s2,
    deref st r1 = Some s1 → deref st r2 = Some s2 →
    inProgress s1 = true → inProgress s2 = true →
    subscriptionId s1 = subscriptionId s2 → r1 = r2.

(** Every task ever created is still in [this.schedules]: the list has not
    been emptied. *)
Definition all_listed (st : State) : Prop :=
  schedules st = seq 0 (length (heap st)).

(** The invariant of the runs without a reset. *)
Definition listed_exclusive (st : State) : Prop := all_listed st ∧ exclusive st.

(** Events other than a reset of the scheduler. *)
Definition no_reset (e : Event) : bool :=
  match e with
  | CallClearSchedules | CallClearStoredData => false
  | _ => true
  end.

(** The event [e] runs the callback of the task [r] to a failure of its
    lookup: either its timer fires, the task is not completed, no task of the
    list is in progress for its subscription, and [getPurchases] throws
    before any request; or the response to its request arrives and
    [getPurchases] throws on it. *)
Definition lookup_fails (e : Event) (r : nat) (st : State) : Prop :=
  match e with
  | Fire r' =>
      r' = r ∧ r ∈ timers st ∧
      ∃ s msg, deref st r = Some s ∧ scheduledAt s <= now st ∧
               completed s = false ∧
               find_inProgress (subscriptionId s) st = false ∧
               (getPurchases_begin (Some (subscriptionId s)) None st).1 = Raised msg
  | Settle r' resp => r' = r ∧ r ∈ inflight st ∧ failing resp = true
  | _ => False
  end.

(** ** The rest of the validation client *)

(** [new IapticStripe(config)]: the configuration and what the constructor
    keeps of it. [Stripe(config.stripePublicKey)] is the payment processor's
    own object and is left out; the scheduler starts as in [fresh]. *)
Record Config := {
  stripePublicKey : option string;
  appName : option string;
  apiKey : option string;
  customIapticUrl : option string
}.

Record Client := {
  iapticUrl : string;
  this_appName : string;
  this_apiKey : string
}.

(** [s.endsWith(p)]: some suffix of [s] is [p]. *)
Fixpoint endsWith (s p : string) : bool :=
  bool_decide (s = p) ||
  match s with
  | String _ s' => endsWith s' p
  | EmptyString => false
  end.

(** [s.slice(0, -1)]. *)
Fixpoint slice_0_minus1 (s : string) : string :=
  match s with
  | EmptyString => EmptyString
  | String _ EmptyString => EmptyString
  | String c s' => String c (slice_0_minus1 s')
  end.

Definition constructor (config : Config) : Outcome Client :=
  if negb (truthy (stripePublicKey config))
  then Throw "Missing required Stripe public key"
  else if negb (truthy (appName config)) || negb (truthy (apiKey config))
  then Throw "Missing required Iaptic configuration"
  else
    let url := default "https://validator.iaptic.com"
                 (js_or (customIapticUrl config)
                    (Some "https://validator.iaptic.com")) in
    let url := if endsWith url "/" then slice_0_minus1 url else url in
    Return {| iapticUrl := url;
              this_appName := default "" (appName config);
              this_apiKey := default "" (apiKey config) |}.

(** Bodies of the [POST] requests, as the objects given to [JSON.stringify].
    They are returned by the [_begin] parts (the first part of these
    functions changes nothing). *)
Inductive Post :=
| PostCheckout (offerId applicationUsername successUrl cancelUrl : string)
| PostPortal (returnUrl ident : string) (access_key : Value)
| PostChangePlan (ident offerId : string) (access_key : Value).

(** Response to [POST /v3/stripe/checkout]: a JSON body
    [{ok, url, sessionId, accessKey}] unless the request or its status
    fails. *)
Inductive CheckoutResponse :=
| CheckoutFailed
| CheckoutStatus
| CheckoutBody (ok : bool) (url sessionId accessKey : option string).

Definition initCheckoutSession_begin
    (offerId applicationUsername successUrl cancelUrl : string) : Post :=
  PostCheckout offerId applicationUsername successUrl cancelUrl.

(** [Return url]: the page navigates to [url]
    ([window.location.href = data.url]). *)
Definition initCheckoutSession_end (resp : CheckoutResponse) (st : State)
  : Outcome string * State :=
  match resp with
  | CheckoutFailed => (Throw "Failed to fetch", st)
  | CheckoutStatus => (Throw "Failed to create checkout session", st)
  | CheckoutBody ok url sessionId accessKey =>
      match ok, truthy url, url with
      | true, true, Some u =>
          let st1 :=
            match truthy sessionId, sessionId with
            | true, Some sid =>
                let st0 := _setSessionId sid st in
                match truthy accessKey, accessKey with
                | true, Some k => _storeAccessKey sid k st0
                | _, _ => st0
                end
            | _, _ => st
            end in
          (Return u, st1)
      | _, _, _ => (Throw "Invalid checkout session response", st)
      end
  end.

(** The resolution of [id] and [accessKey] that [redirectToCustomerPortal]
    and [changePlan] share, up to their first [throw]. *)
Definition resolve_or_throw (ident accessKey : option string) (st : State)
  : Outcome (string * Value) :=
  let ident1 :=
    if truthy ident then ident else js_or (getSubscriptionId st) (getSessionId st) in
  let accessKey1 :=
    if truthy accessKey then Str <$> accessKey else getAccessKey ident1 st in
  match truthy ident1, ident1, truthy_value accessKey1, accessKey1 with
  | true, Some i, true, Some k => Return (i, k)
  | true, Some i, _, _ => Throw "No access key available"
  | _, _, _, _ => Throw "No session ID available"
  end.

Definition redirectToCustomerPortal_begin (returnUrl : string)
    (ident accessKey : option string) (st : State) : Outcome Post :=
  match resolve_or_throw ident accessKey st with
  | Return (i, k) => Return (PostPortal returnUrl i k)
  | Throw msg => Throw msg
  end.

(** Response to [POST /v3/stripe/portal]. *)
Inductive PortalResponse :=
| PortalFailed
| PortalStatus (message : option string)
| PortalBody (ok : bool) (url : option string).

Definition redirectToCustomerPortal_end (resp : PortalResponse) : Outcome string :=
  match resp with
  | PortalFailed => Throw "Failed to fetch"
  | PortalStatus message =>
      Throw (default "Failed to create portal session"
               (js_or message (Some "Failed to create portal session")))
  | PortalBody ok url =>
      match ok, truthy url, url with
      | true, true, Some u => Return u
      | _, _, _ => Throw "Invalid portal session response"
      end
  end.

Definition changePlan_begin (offerId : string) (ident accessKey : option string)
    (st : State) : Outcome Post :=
  match resolve_or_throw ident accessKey st with
  | Return (i, k) => Return (PostChangePlan i offerId k)
  | Throw msg => Throw msg
  end.

(** Response to [POST /v3/stripe/change-plan]. *)
Inductive ChangePlanResponse :=
| ChangePlanFailed
| ChangePlanStatus (message : option string)
| ChangePlanBody (ok : bool) (purchase : option Purchase)
    (new_access_keys : option (list (string * string))).

Definition changePlan_end (resp : ChangePlanResponse) (st : State)
  : Outcome Purchase * State :=
  match resp with
  | ChangePlanFailed => (Throw "Failed to fetch", st)
  | ChangePlanStatus message =>
      (Throw (default "Failed to change plan"
                (js_or message (Some "Failed to change plan"))), st)
  | ChangePlanBody true (Some purchase) new_access_keys =>
      let st1 :=
        match new_access_keys with
        | Some entries =>
            foldl (λ s '(subId, newKey), _storeAccessKey subId newKey s) st entries
        | None => st
        end in
      let st2 := schedulePurchaseRefreshes purchase st1 in
      let st3 :=
        scheduleRefresh (purchaseId purchase) (now st2 + 10000)
          "post-change-verification" st2 in
      (Return purchase, st3)
  | ChangePlanBody _ _ _ => (Throw "Invalid change plan response", st)
  end.

(** ** Formatting of billing periods *)

(** [\d] and [[YMWD]]. *)
Definition is_digit (c : ascii) : bool :=
  (48 <=? nat_of_ascii c)%nat && (nat_of_ascii c <=? 57)%nat.

Definition is_unit (c : ascii) : bool :=
  match c with
  | "Y"%char | "M"%char | "W"%char | "D"%char => true
  | _ => false
  end.

(** The longest run of digits at the start of a string, and the rest. *)
Fixpoint span_digits (s : string) : string * string :=
  match s with
  | String c s' =>
      if is_digit c then
        let (ds, rest) := span_digits s' in (String c ds, rest)
      else (EmptyString, s)
  | EmptyString => (EmptyString, EmptyString)
  end.

(** [/P(\d+)([YMWD])/] tried at the start of [s]: the groups [count] and
    [unit]. The digits are taken greedily; with fewer digits the next
    character is a digit, not a unit, so giving some back finds nothing. *)
Definition match_here (s : string) : option (string * ascii) :=
  match s with
  | String "P"%char s1 =>
      match span_digits s1 with
      | (String c ds, String u _) =>
          if is_unit u then Some (String c ds, u) else None
      | _ => None
      end
  | _ => None
  end.

(** [period.match(/P(\d+)([YMWD])/)]: the leftmost match. *)
Fixpoint period_match (s : string) : option (string * ascii) :=
  match match_here s with
  | Some m => Some m
  | None =>
      match s with
      | String _ s' => period_match s'
      | EmptyString => None
      end
  end.

(** [IapticStripe.formatBillingPeriodEN]. *)
Definition formatBillingPeriodEN (period : option string) : string :=
  match truthy period, period with
  | true, Some p =>
      match period_match p with
      | None => p
      | Some (count, unit) =>
          let displayCount :=
            if bool_decide (count = "1") then "" else " " +:+ count in
          match unit with
          | "Y"%char => if bool_decide (count = "1") then "Yearly"
                        else "Every" +:+ displayCount +:+ " years"
          | "M"%char => if bool_decide (count = "1") then "Monthly"
                        else "Every" +:+ displayCount +:+ " months"
          | "W"%char => if bool_decide (count = "1") then "Weekly"
                        else "Every" +:+ displayCount +:+ " weeks"
          | "D"%char => if bool_decide (count = "1") then "Daily"
                        else "Every" +:+ displayCount +:+ " days"
          | _ => p
          end
      end
  | _, _ => ""
  end.

(** [formatBillingPeriod] of the page script (index.js). *)
Definition formatBillingPeriod (period : string) : string :=
  match period_match period with
  | None => period
  | Some (count, unit) =>
      match unit with
      | "Y"%char => if bool_decide (count = "1") then "Yearly"
                    else "Every " +:+ count +:+ " years"
      | "M"%char => if bool_decide (count = "1") then "Monthly"
                    else "Every " +:+ count +:+ " months"
      | "W"%char => if bool_decide (count = "1") then "Weekly"
                    else "Every " +:+ count +:+ " weeks"
      | "D"%char => if bool_decide (count = "1") then "Daily"
                    else "Every " +:+ count +:+ " days"
      | _ => period
      end
  end.

(** Strings of digits, and strings in which the character [c] occurs. *)
Fixpoint all_digits (s : string) : bool :=
  match s with
  | String c s' => is_digit c && all_digits s'
  | EmptyString => true
  end.

Fixpoint occurs (c : ascii) (s : string) : bool :=
  match s with
  | String c' s' => bool_decide (c' = c) || occurs c s'
  | EmptyString => false
  end.

(** [href.split('#')[0]]. *)
Fixpoint before_hash (href : string) : string :=
  match href with
  | String c s' => if bool_decide (c = "#"%char) then EmptyString
                   else String c (before_hash s')
  | EmptyString => EmptyString
  end.

(** [returnUrl(withHash)] of the page script, at the location [href]. *)
Definition returnUrl (href withHash : string) : string :=
  before_hash href +:+ "#" +:+ withHash.

(** ** Further invariants of the scheduler *)

(** Number of times the callback of the task [r] has called
    [getPurchases]. *)
Definition lookups (r : nat) (st : State) : nat :=
  length (List.filter (λ o, bool_decide (o = ObsLookup r)) (trace st)).

Definition at_most_once (st : State) : Prop :=
  ∀ r, (lookups r st ≤ 1)%nat ∧
       (r ∈ timers st → lookups r st = 0%nat) ∧
       ((length (heap st) ≤ r)%nat → lookups r st = 0%nat).

(** Every task in progress waits for its response, the task [r0] apart. *)
Definition busy_waits (r0 : option nat) (st : State) : Prop :=
  ∀ r s, deref st r = Some s → inProgress s = true →
         r ∈ inflight st ∨ r0 = Some r.

(** * Properties *)

(** ** Projections of the scheduler operations *)

Lemma some_id_ids i st : some_id i st = true ↔ i ∈ ids st.
Proof.
  unfold some_id, ids. rewrite existsb_exists, list_elem_of_omap.
  split.
  - intros (r & Hr & H). exists r. rewrite list_elem_of_In. split; [done|].
    destruct (deref st r); [|done]. apply bool_decide_eq_true in H. by subst.
  - intros (r & Hr & H). exists r. rewrite <- list_elem_of_In. split; [done|].
    destruct (deref st r); simplify_eq/=. by apply bool_decide_eq_true.
Qed.

Lemma scheduleRefresh_eq sub date why st :
  scheduleRefresh sub date why st =
  if some_id (mkId sub date) st then st
  else
    with_timers
      (timers st ++ if bool_decide (date <= now st) then [] else [length (heap st)])
      (with_schedules (schedules st ++ [length (heap st)])
         (with_heap (heap st ++ [new_schedule sub date why]) st)).
Proof.
  unfold scheduleRefresh. cbn [id new_schedule].
  destruct (some_id (mkId sub date) st); [done|].
  unfold setTimeout, deref. cbn.
  rewrite lookup_app_r by lia. rewrite Nat.sub_diag. cbn.
  destruct st as [ls t h sc ti fl tr]; cbn.
  destruct (bool_decide_reflect (date - t <= 0)), (bool_decide_reflect (date <= t));
    try lia; unfold with_timers; cbn; by rewrite ?app_nil_r.
Qed.

Lemma scheduleRefresh_known sub date why st :
  some_id (mkId sub date) st = true → scheduleRefresh sub date why st = st.
Proof. intros H. by rewrite scheduleRefresh_eq, H. Qed.

Lemma scheduleRefresh_frame sub date why st :
  let st' := scheduleRefresh sub date why st in
  storage st' = storage st ∧ now st' = now st ∧ inflight st' = inflight st ∧
  trace st' = trace st.
Proof. cbv zeta. rewrite scheduleRefresh_eq. by destruct (some_id _ st). Qed.

(** Ids read through a heap that has grown at its end. *)
Lemma omap_deref_grow (h new : list ScheduledRefresh) (l : list nat) :
  Forall (λ r, (r < length h)%nat) l →
  omap (λ r, id <$> (h ++ new) !! r) l = omap (λ r, id <$> h !! r) l.
Proof.
  induction 1 as [|r l Hr _ IH]; [done|].
  cbn. rewrite IH, lookup_app_l by done. done.
Qed.

Lemma ids_scheduleRefresh sub date why st :
  Forall (λ r, (r < length (heap st))%nat) (schedules st) →
  ids (scheduleRefresh sub date why st) =
  ids st ++ if some_id (mkId sub date) st then [] else [mkId sub date].
Proof.
  intros Hb. rewrite scheduleRefresh_eq.
  destruct (some_id _ st); [by rewrite app_nil_r|].
  unfold ids, deref. cbn. rewrite omap_app, omap_deref_grow by done.
  cbn. rewrite lookup_app_r by lia. by rewrite Nat.sub_diag.
Qed.

Lemma Forall_lt_grow (n m : nat) (l : list nat) :
  (n ≤ m)%nat → Forall (λ r, (r < n)%nat) l → Forall (λ r, (r < m)%nat) l.
Proof.
  intros Hnm H. eapply Forall_impl; [exact H|]. intros r Hr. cbn in *. lia.
Qed.

Lemma wf_scheduleRefresh sub date why st :
  wf st → wf (scheduleRefresh sub date why st).
Proof.
  intros Hwf.
  pose proof (ids_scheduleRefresh sub date why st (wf_schedules _ Hwf)) as Hids.
  pose proof (some_id_ids (mkId sub date) st) as Hsome.
  rewrite scheduleRefresh_eq in *.
  destruct (some_id (mkId sub date) st); [done|].
  destruct Hwf as [Hs Ht Hf Hi Hw].
  assert (Hlen : ∀ x : ScheduledRefresh,
     length (heap st ++ [x]) = S (length (heap st))).
  { intros x. rewrite length_app. cbn. lia. }
  split.
  - cbn. rewrite Hlen. apply Forall_app. split.
    + eapply Forall_lt_grow; [|done]. lia.
    + apply Forall_singleton. lia.
  - cbn. rewrite Hlen. apply Forall_app. split.
    + eapply Forall_lt_grow; [|done]. lia.
    + case_bool_decide; [done|]. apply Forall_singleton. lia.
  - cbn. rewrite Hlen. eapply Forall_lt_grow; [|done]. lia.
  - rewrite Hids. apply NoDup_app. split; [done|]. split.
    + intros x Hx Hx'. apply list_elem_of_singleton in Hx'. subst.
      apply Hsome in Hx. done.
    + apply NoDup_singleton.
  - cbn. intros r Hr. destruct (Hw r Hr) as (Hnt & s & Hd & Hc & Hp).
    rewrite Forall_forall in Hf. specialize (Hf r Hr).
    split.
    + rewrite elem_of_app. intros [?|Hin]; [done|].
      case_bool_decide; [by apply elem_of_nil in Hin|].
      apply list_elem_of_singleton in Hin. lia.
    + exists s. unfold deref in *. cbn. by rewrite lookup_app_l.
Qed.

(** ** Operations closed under the primitive ones

    The composite operations are made of [scheduleRefresh],
    [_storeAccessKey], [log] and the two flag updates; a property kept by
    these is kept by the composites. *)

Section Closure.

Variable P : State → Prop.

Hypothesis P_scheduleRefresh :
  ∀ sub date why st, P st → P (scheduleRefresh sub date why st).

Lemma schedulePurchaseRefreshes_closed purchase st :
  P st → P (schedulePurchaseRefreshes purchase st).
Proof.
  intros HP. unfold schedulePurchaseRefreshes. cbn [foldl].
  assert (Hstep : ∀ (d : option Z) why s, P s →
            P (match d with
               | Some t => if bool_decide (t > now s)
                           then scheduleRefresh (purchaseId purchase) t why s
                           else s
               | None => s
               end)).
  { intros [t|] why s Hs; [|done]. case_bool_decide; auto. }
  by do 2 apply Hstep.
Qed.

Lemma foldl_schedulePurchaseRefreshes_closed purchases st :
  P st → P (foldl (λ s purchase, schedulePurchaseRefreshes purchase s) st purchases).
Proof.
  revert st. induction purchases as [|p ps IH]; intros st HP; [done|].
  cbn. apply IH. by apply schedulePurchaseRefreshes_closed.
Qed.

Hypothesis P_storeAccessKey :
  ∀ ident accessKey st, P st → P (_storeAccessKey ident accessKey st).

Lemma getPurchases_end_closed resp st :
  P st → P (getPurchases_end resp st).2.
Proof.
  intros HP. destruct resp as [|m|[] ps [ks|]]; cbn; try done.
  - generalize (foldl_schedulePurchaseRefreshes_closed ps st HP).
    generalize (foldl (λ s purchase, schedulePurchaseRefreshes purchase s) st ps).
    induction ks as [|[i k] ks IH]; intros s Hs; [done|].
    cbn. apply IH. by apply P_storeAccessKey.
  - by apply foldl_schedulePurchaseRefreshes_closed.
Qed.

Hypothesis P_fetch : ∀ q st, P st → P (log (ObsFetch q) st).

Lemma getPurchases_begin_closed ident accessKey st :
  P st → P (getPurchases_begin ident accessKey st).2.
Proof.
  intros HP. unfold getPurchases_begin.
  repeat (case_match; try done); cbn; auto.
Qed.

(** The callback of the task [r]. *)
Variable r : nat.

Hypothesis P_log : ∀ o st, subject o = Some r → P st → P (log o st).
Hypothesis P_set_inProgress : ∀ b st, P st → P (set_inProgress r b st).

Lemma on_failure_closed st : P st → P (on_failure r st).
Proof.
  intros HP. unfold on_failure. apply P_set_inProgress.
  repeat case_match; auto.
Qed.

Hypothesis P_set_completed : ∀ st, P st → P (set_completed r true st).

Lemma on_success_closed st : P st → P (on_success r st).
Proof. intros HP. unfold on_success. auto. Qed.

Lemma timer_resume_closed resp st : P st → P (timer_resume r resp st).
Proof.
  intros HP. unfold timer_resume.
  pose proof (getPurchases_end_closed resp st HP) as H.
  destruct (getPurchases_end resp st) as [[ps|msg] st1]; cbn in H.
  - by apply on_success_closed.
  - by apply on_failure_closed.
Qed.

Hypothesis P_await : ∀ st, P st → P (with_inflight (inflight st ++ [r]) st).

Lemma timer_callback_closed st : P st → P (timer_callback r st).
Proof.
  intros HP. unfold timer_callback.
  destruct (deref st r) as [s|]; [|done].
  destruct (completed s); [done|].
  destruct (find_inProgress _ st); [by apply P_log|].
  set (st1 := log (ObsLookup r) (set_inProgress r true st)).
  assert (HP1 : P st1) by (by apply P_log, P_set_inProgress).
  pose proof (getPurchases_begin_closed (Some (subscriptionId s)) None st1 HP1) as H.
  destruct (getPurchases_begin _ _ st1) as [[ps|msg|] st2]; cbn in H.
  - by apply on_success_closed.
  - by apply on_failure_closed.
  - by apply P_await.
Qed.

End Closure.

(** ** The invariant holds in every reachable state *)

Lemma wf_ext st st' :
  heap st' = heap st → schedules st' = schedules st →
  timers st' = timers st → inflight st' = inflight st →
  wf st → wf st'.
Proof.
  intros Hh Hs Ht Hf [H1 H2 H3 H4 H5].
  split; unfold ids, deref in *; rewrite ?Hh, ?Hs, ?Ht, ?Hf; done.
Qed.

Lemma wf_fresh ls t : wf (fresh ls t).
Proof.
  split; cbn; try by constructor.
  intros r Hr. by apply elem_of_nil in Hr.
Qed.

Lemma wf_log o st : wf st → wf (log o st).
Proof. by apply wf_ext. Qed.

Lemma wf_storeAccessKey ident accessKey st :
  wf st → wf (_storeAccessKey ident accessKey st).
Proof. apply wf_ext; unfold _storeAccessKey; by case_match. Qed.

Lemma wf_clearSchedules st : wf st → wf (clearSchedules st).
Proof.
  intros [H1 H2 H3 H4 H5]. split; cbn; try done; by constructor.
Qed.

Lemma omap_pointwise {A B} (f g : A → option B) (l : list A) :
  (∀ x, f x = g x) → omap f l = omap g l.
Proof. intros H. induction l as [|x l IH]; [done|]. cbn. by rewrite H, IH. Qed.

Lemma lookup_alter_id (f : ScheduledRefresh → ScheduledRefresh) (r r' : nat)
    (h : list ScheduledRefresh) :
  (∀ s, id (f s) = id s) → id <$> alter f r h !! r' = id <$> h !! r'.
Proof.
  intros Hf. destruct (decide (r = r')) as [->|Hne].
  - rewrite list_lookup_alter_eq. destruct (h !! r') as [s|]; cbn; [|done].
    by rewrite Hf.
  - by rewrite list_lookup_alter_ne.
Qed.

(** Updating the flags of a task that waits for no response. *)
Lemma wf_alter (f : ScheduledRefresh → ScheduledRefresh) r st :
  (∀ s, id (f s) = id s) →
  r ∉ inflight st → wf st → wf (with_heap (alter f r (heap st)) st).
Proof.
  intros Hf Hr [H1 H2 H3 H4 H5].
  split; cbn; rewrite ?length_alter; try done.
  - unfold ids, deref in *. cbn.
    erewrite omap_pointwise; [exact H4|]. intros x. by apply lookup_alter_id.
  - intros r' Hr'. destruct (H5 r' Hr') as (? & s & ? & ? & ?).
    split; [done|]. exists s. unfold deref in *. cbn.
    rewrite list_lookup_alter_ne; [done|]. intros ->. done.
Qed.

Lemma wf_set_inProgress r b st :
  r ∉ inflight st → wf st → wf (set_inProgress r b st).
Proof. intros. by apply wf_alter. Qed.

Lemma wf_set_completed r b st :
  r ∉ inflight st → wf st → wf (set_completed r b st).
Proof. intros. by apply wf_alter. Qed.

Lemma elem_of_remove r x l : x ∈ remove r l ↔ x ∈ l ∧ x ≠ r.
Proof.
  unfold remove. rewrite !list_elem_of_In, filter_In, negb_true_iff, Nat.eqb_neq.
  done.
Qed.

(** What [wf] says of a task with an armed timer. *)
Lemma wf_timer_not_inflight r st : wf st → r ∈ timers st → r ∉ inflight st.
Proof. intros Hwf Hr Hin. by destruct (wf_waiting _ Hwf r Hin). Qed.

Lemma inflight_closed r (st0 : State) :
  let P := λ st, wf st ∧ (r ∉ inflight st) ∧ timers st0 ⊆ timers st in
  (∀ sub date why st, P st → P (scheduleRefresh sub date why st)) ∧
  (∀ ident accessKey st, P st → P (_storeAccessKey ident accessKey st)) ∧
  (∀ o st, P st → P (log o st)) ∧
  (∀ b st, P st → P (set_inProgress r b st)) ∧
  (∀ st, P st → P (set_completed r true st)).
Proof.
  cbv zeta. repeat split; try (destruct H as (H1 & H2 & H3)).
  all: try (by apply wf_scheduleRefresh).
  all: try (by apply wf_storeAccessKey).
  all: try (by apply wf_log).
  all: try (by apply wf_set_inProgress).
  all: try (by apply wf_set_completed).
  all: try done.
  - by destruct (scheduleRefresh_frame sub date why st) as (_ & _ & -> & _).
  - rewrite scheduleRefresh_eq. destruct (some_id _ st); [done|]. cbn.
    intros x Hx. apply elem_of_app. left. by apply H3.
  - unfold _storeAccessKey. by case_match.
  - unfold _storeAccessKey. by case_match.
Qed.

Lemma wf_timer_resume r resp st :
  wf st → r ∉ inflight st → wf (timer_resume r resp st).
Proof.
  intros Hwf Hr.
  destruct (inflight_closed r st) as (C1 & C2 & C3 & C4 & C5).
  eapply (timer_resume_closed _ C1 C2 r (λ o st _, C3 o st) C4 C5 resp st); done.
Qed.

Lemma wf_remove_timer r st : wf st → wf (with_timers (remove r (timers st)) st).
Proof.
  intros [H1 H2 H3 H4 H5]. split; cbn; try done.
  - rewrite Forall_forall in *. intros x Hx. apply H2.
    by apply elem_of_remove in Hx as [? _].
  - intros x Hx. destruct (H5 x Hx) as (Hnt & Hs). split; [|done].
    intros Hin. apply elem_of_remove in Hin as [? _]. done.
Qed.

Lemma wf_remove_inflight r st : wf st → wf (with_inflight (remove r (inflight st)) st).
Proof.
  intros [H1 H2 H3 H4 H5]. split; cbn; try done.
  - rewrite Forall_forall in *. intros x Hx. apply H3.
    by apply elem_of_remove in Hx as [? _].
  - intros x Hx. apply elem_of_remove in Hx as [Hx _]. by apply H5.
Qed.

Lemma wf_await r o st :
  wf st → r ∉ timers st →
  (∃ s, deref st r = Some s ∧ completed s = false ∧ inProgress s = true) →
  wf (with_inflight (inflight (log o st) ++ [r]) (log o st)).
Proof.
  intros [W1 W2 W3 W4 W5] Ht (s & Hd & Hc & Hp).
  split; cbn; try done.
  - apply Forall_app. split; [done|]. apply Forall_singleton.
    by apply lookup_lt_Some in Hd.
  - intros x Hx. apply elem_of_app in Hx as [Hx|Hx].
    + by apply W5.
    + apply list_elem_of_singleton in Hx. subst x. split; [done|]. eauto.
Qed.

Lemma wf_timer_callback r st :
  wf st → r ∉ inflight st → r ∉ timers st → wf (timer_callback r st).
Proof.
  intros Hwf Hr Ht. unfold timer_callback.
  destruct (deref st r) as [s|] eqn:Hd; [|done].
  destruct (completed s) eqn:Hc; [done|].
  destruct (find_inProgress _ st); [by apply wf_log|].
  set (st1 := log (ObsLookup r) (set_inProgress r true st)).
  assert (Hwf1 : wf st1) by (by apply wf_log, wf_set_inProgress).
  assert (Hd1 : ∃ s1, deref st1 r = Some s1 ∧ completed s1 = false ∧
                      inProgress s1 = true).
  { unfold st1, deref in *. cbn. rewrite list_lookup_alter_eq, Hd. cbn. eauto. }
  destruct (inflight_closed r st1) as (C1 & C2 & C3 & C4 & C5).
  assert (HP1 : wf st1 ∧ (r ∉ inflight st1) ∧ timers st1 ⊆ timers st1)
    by (split; [done|split; [done|set_solver]]).
  unfold getPurchases_begin.
  repeat case_match; simplify_eq.
  all: try (by apply (on_success_closed _ r C4 C5 _ HP1)).
  all: try (by apply (on_failure_closed _ C1 r (λ o st _, C3 o st) C4 _ HP1)).
  all: by apply wf_await.
Qed.

Lemma wf_step e st st' : wf st → step e st = Some st' → wf st'.
Proof.
  intros Hwf. destruct e; cbn; intros H.
  - case_bool_decide; simplify_eq. by apply (wf_ext st).
  - destruct (deref st r) as [s|] eqn:Hd; [|done].
    case_match; simplify_eq.
    apply andb_true_iff in H0 as [Hin _]. apply bool_decide_eq_true in Hin.
    apply wf_timer_callback.
    + by apply wf_remove_timer.
    + cbn. by apply wf_timer_not_inflight.
    + cbn. intros Hx. apply elem_of_remove in Hx as [_ ?]. done.
  - case_bool_decide; simplify_eq. apply wf_timer_resume.
    + by apply wf_remove_inflight.
    + cbn. intros Hx. apply elem_of_remove in Hx as [_ ?]. done.
  - simplify_eq. by apply wf_scheduleRefresh.
  - simplify_eq. apply schedulePurchaseRefreshes_closed; [|done].
    intros. by apply wf_scheduleRefresh.
  - simplify_eq. by apply wf_clearSchedules.
  - simplify_eq. apply wf_clearSchedules. by apply (wf_ext st).
  - simplify_eq. by apply (wf_ext st).
  - simplify_eq. by apply wf_storeAccessKey.
Qed.

Lemma wf_run es st st' : wf st → run es st = Some st' → wf st'.
Proof.
  revert st. induction es as [|e es IH]; intros st Hwf H; cbn in H.
  - by simplify_eq.
  - destruct (step e st) as [st1|] eqn:He; [|done].
    eapply IH; [|done]. by eapply wf_step.
Qed.

Lemma reachable_wf st : reachable st → wf st.
Proof. intros (ls & t & es & H). eapply wf_run; [apply wf_fresh|done]. Qed.

(** ** Credential lookup and the subscription pointer *)

Lemma truthy_Some s : s ≠ "" → truthy (Some s) = true.
Proof. intros H. cbn. by rewrite bool_decide_eq_false_2. Qed.

Lemma truthy_value_Str s : s ≠ "" → truthy_value (Some (Str s)) = true.
Proof. intros H. cbn. by rewrite bool_decide_eq_false_2. Qed.

Lemma or_value_None v : or_value v None = None → truthy_value v = false.
Proof. unfold or_value. destruct (truthy_value v) eqn:H; [by intros ->|done]. Qed.

Lemma index_own obj x s : obj !! propertyKey x = Some s → index obj x = Some (Str s).
Proof. unfold index. by intros ->. Qed.

Lemma index_absent obj x :
  obj !! propertyKey x = None → propertyKey x ∉ Object_prototype →
  index obj x = None.
Proof. unfold index. intros -> H. by rewrite bool_decide_eq_false_2. Qed.

Lemma index_inherited obj x :
  obj !! propertyKey x = None → propertyKey x ∈ Object_prototype →
  index obj x = Some (Inherited (propertyKey x)).
Proof. unfold index. intros -> H. by rewrite bool_decide_eq_true_2. Qed.

Lemma index_falsy obj x :
  truthy_value (index obj x) = false →
  obj !! propertyKey x = None ∨ obj !! propertyKey x = Some "".
Proof.
  unfold index. destruct (obj !! propertyKey x) as [s|]; [|by left].
  cbn. intros H. apply negb_false_iff, bool_decide_eq_true in H. right. by subst.
Qed.

Lemma not_Object_prototype_null : "null" ∉ Object_prototype.
Proof. apply (bool_decide_unpack _). by vm_compute. Qed.

Lemma sub_not_proto ident : startsWith ident "sub_" = true → ident ≠ "__proto__".
Proof. by intros H ->. Qed.

(** C10. An id that names a member every object inherits from
    [Object.prototype] ("constructor", "toString", "__proto__", ...) and has
    no entry in the stored credential map: [getAccessKey] returns that
    inherited member, a function or an object: not the access key stored for
    the current session id, not null, and not a string. *)
Theorem getAccessKey_inherited_member st name :
  name ∈ Object_prototype →
  _getStoredAccessKeys st !! name = None →
  getAccessKey (Some name) st = Some (Inherited name) ∧
  getAccessKey (Some name) st ≠ None ∧
  ∀ k : string, getAccessKey (Some name) st ≠ Some (Str k).
Proof.
  intros Hin Hnone.
  assert (Hne : name ≠ "").
  { intros ->. revert Hin. apply (bool_decide_unpack _). by vm_compute. }
  assert (E : getAccessKey (Some name) st = Some (Inherited name)).
  { unfold getAccessKey. cbv zeta.
    rewrite (truthy_Some name Hne). cbv iota.
    rewrite (truthy_Some name Hne). cbv iota.
    by rewrite (index_inherited _ (Some name) Hnone Hin). }
  rewrite E. by split_and!.
Qed.

Lemma getAccessKey_inherited_member_witness :
  let st := _storeAccessKey "cs_1" "k1" (_setSessionId "cs_1" (fresh empty_storage 0)) in
  (getSessionId st = Some "cs_1" ∧ _getStoredAccessKeys st !! "cs_1" = Some "k1" ∧
   _getStoredAccessKeys st !! "constructor" = None) ∧
  getAccessKey (Some "constructor") st = Some (Inherited "constructor") ∧
  getAccessKey (Some "constructor") st ≠ None ∧
  ∀ k : string, getAccessKey (Some "constructor") st ≠ Some (Str k).
Proof.
  split.
  - split_and!; vm_compute; reflexivity.
  - apply (getAccessKey_inherited_member _ "constructor").
    + apply (bool_decide_unpack _). vm_compute. reflexivity.
    + vm_compute. reflexivity.
Defined.

(** C7, as stated, fails: storing a credential for a second id that starts
    with "sub_" overwrites the subscription pointer set by the first. *)
Lemma storeAccessKey_overwrites_pointer :
  let st1 := _storeAccessKey "sub_1" "k1" (fresh empty_storage 0) in
  let st2 := _storeAccessKey "sub_2" "k2" st1 in
  getSubscriptionId st1 = Some "sub_1" ∧ getSubscriptionId st2 = Some "sub_2" ∧
  getSubscriptionId st2 ≠ getSubscriptionId st1.
Proof. cbn. repeat split. discriminate. Qed.

(** C7, amended. Storing a credential for an id that starts with "sub_" sets
    the subscription pointer to that id, whatever the pointer was; storing a
    credential for any other id leaves the pointer as it is; and
    [clearStoredData] removes it. *)
Theorem storeAccessKey_subscription_pointer st ident accessKey :
  getSubscriptionId (_storeAccessKey ident accessKey st) =
    (if startsWith ident "sub_" then Some ident else getSubscriptionId st) ∧
  getSubscriptionId (clearStoredData st) = None.
Proof.
  split; [|done]. unfold _storeAccessKey.
  by destruct (startsWith ident "sub_").
Qed.

(** ** Purchase lookup without an id *)

(** C8. [getPurchases] called without an id (absent or empty), when neither a
    subscription id nor a session id is stored, returns the empty list; it
    does not throw, sends no request and changes nothing. *)
Theorem getPurchases_without_id st ident accessKey :
  truthy ident = false →
  truthy (getSubscriptionId st) = false →
  truthy (getSessionId st) = false →
  getPurchases_begin ident accessKey st = (Resolved [], st) ∧
  network_calls (getPurchases_begin ident accessKey st).2 = network_calls st.
Proof.
  intros Hi Hsub Hses.
  assert (H : getPurchases_begin ident accessKey st = (Resolved [], st)).
  { unfold getPurchases_begin. rewrite Hi. unfold js_or. rewrite Hsub, Hses.
    by destruct (getSessionId st). }
  by rewrite H.
Qed.

Lemma getPurchases_without_id_witness :
  getPurchases_begin None None (fresh empty_storage 0) =
    (Resolved [], fresh empty_storage 0) ∧
  network_calls (getPurchases_begin None None (fresh empty_storage 0)).2 =
    network_calls (fresh empty_storage 0).
Proof.
  apply (getPurchases_without_id (fresh empty_storage 0) None None); reflexivity.
Defined.

(** ** Catalog cache *)





(** ** Scheduling is idempotent *)

Lemma count_absent (i : string) (l : list string) :
  i ∉ l → length (List.filter (λ j, bool_decide (j = i)) l) = 0%nat.
Proof.
  induction l as [|x l IH]; [done|]. intros H.
  apply not_elem_of_cons in H as [Hne Hl]. cbn.
  rewrite bool_decide_eq_false_2 by done. by apply IH.
Qed.

Lemma count_NoDup (i : string) (l : list string) :
  NoDup l → i ∈ l → length (List.filter (λ j, bool_decide (j = i)) l) = 1%nat.
Proof.
  induction 1 as [|x l Hx Hnd IH]; intros Hi.
  - by apply elem_of_nil in Hi.
  - cbn. apply elem_of_cons in Hi as [->|Hi].
    + rewrite bool_decide_eq_true_2 by done. cbn. by rewrite count_absent.
    + rewrite bool_decide_eq_false_2; [by apply IH|]. intros ->. done.
Qed.

Lemma some_id_scheduleRefresh sub date why st :
  wf st → some_id (mkId sub date) (scheduleRefresh sub date why st) = true.
Proof.
  intros Hwf. apply some_id_ids.
  rewrite ids_scheduleRefresh by apply Hwf.
  destruct (some_id (mkId sub date) st) eqn:H.
  - rewrite app_nil_r. by apply some_id_ids.
  - apply elem_of_app. right. by apply list_elem_of_singleton.
Qed.

(** C1. In every state the page reaches, for every subscription id, instant
    and reasons: after [scheduleRefresh(s, t, r1)], a second
    [scheduleRefresh(s, t, r2)] changes nothing, also when the reason differs,
    and exactly one task of the schedule list has the id derived from
    [(s, t)]. *)
Theorem scheduleRefresh_idempotent st sub date why1 why2 :
  reachable st →
  let st1 := scheduleRefresh sub date why1 st in
  let st2 := scheduleRefresh sub date why2 st1 in
  st2 = st1 ∧ count_id (mkId sub date) st2 = 1%nat.
Proof.
  intros Hr. apply reachable_wf in Hr. cbv zeta.
  pose proof (some_id_scheduleRefresh sub date why1 st Hr) as Hsome.
  rewrite (scheduleRefresh_known sub date why2 _ Hsome).
  split; [done|]. unfold count_id. apply count_NoDup.
  - by apply wf_ids, wf_scheduleRefresh.
  - by apply some_id_ids.
Qed.

Lemma scheduleRefresh_idempotent_witness :
  let st := fresh empty_storage 0 in
  let st1 := scheduleRefresh "sub_1" 5000 "pre-expiration" st in
  let st2 := scheduleRefresh "sub_1" 5000 "post-change-verification" st1 in
  st2 = st1 ∧ count_id (mkId "sub_1" 5000) st2 = 1%nat.
Proof.
  apply (scheduleRefresh_idempotent (fresh empty_storage 0)).
  exists empty_storage, 0, []. reflexivity.
Defined.

(** ** A task without a timer never runs *)

Section NotRun.

Variables (r0 : nat) (st0 : State).
Hypothesis Hr0 : is_Some (deref st0 r0).

Lemma not_run_refl : r0 ∉ timers st0 → r0 ∉ inflight st0 → not_run r0 st0 st0.
Proof.
  intros Ht Hf. repeat split; try done. exists []. by rewrite app_nil_r.
Qed.

Lemma not_run_ext st st' :
  heap st' = heap st → timers st' = timers st → inflight st' = inflight st →
  trace st' = trace st → not_run r0 st0 st → not_run r0 st0 st'.
Proof.
  unfold not_run, deref. intros -> -> -> ->. done.
Qed.

Lemma not_run_scheduleRefresh sub date why st :
  not_run r0 st0 st → not_run r0 st0 (scheduleRefresh sub date why st).
Proof.
  intros HP. rewrite scheduleRefresh_eq. destruct (some_id _ st); [done|].
  destruct HP as (Hd & Ht & Hf & Htr).
  assert (Hlt : (r0 < length (heap st))%nat).
  { destruct Hr0 as [s Hs]. rewrite Hs in Hd. by apply lookup_lt_Some in Hd. }
  repeat split; try done.
  - unfold deref in *. cbn. by rewrite lookup_app_l.
  - cbn. rewrite elem_of_app. intros [?|Hin]; [done|].
    case_bool_decide; [by apply elem_of_nil in Hin|].
    apply list_elem_of_singleton in Hin. lia.
Qed.

Lemma not_run_storeAccessKey ident accessKey st :
  not_run r0 st0 st → not_run r0 st0 (_storeAccessKey ident accessKey st).
Proof. apply not_run_ext; unfold _storeAccessKey; by case_match. Qed.

Lemma not_run_log o st :
  subject o ≠ Some r0 → not_run r0 st0 st → not_run r0 st0 (log o st).
Proof.
  intros Ho (Hd & Ht & Hf & tr & Htr & Hall). repeat split; try done.
  exists (tr ++ [o]). cbn. rewrite Htr, (assoc_L (++)). split; [done|].
  apply Forall_app. split; [done|]. by apply Forall_singleton.
Qed.

Lemma not_run_alter (f : ScheduledRefresh → ScheduledRefresh) r st :
  r ≠ r0 → not_run r0 st0 st → not_run r0 st0 (with_heap (alter f r (heap st)) st).
Proof.
  intros Hne (Hd & Ht & Hf & Htr). repeat split; try done.
  unfold deref in *. cbn. by rewrite list_lookup_alter_ne.
Qed.

Lemma not_run_await r st :
  r ≠ r0 → not_run r0 st0 st →
  not_run r0 st0 (with_inflight (inflight st ++ [r]) st).
Proof.
  intros Hne (Hd & Ht & Hf & Htr). repeat split; try done.
  cbn. rewrite elem_of_app, list_elem_of_singleton. intros [?|?]; done.
Qed.

Lemma not_run_timer_callback r st :
  r ≠ r0 → not_run r0 st0 st → not_run r0 st0 (timer_callback r st).
Proof.
  intros Hne. apply timer_callback_closed.
  - apply not_run_scheduleRefresh.
  - intros. by apply not_run_log.
  - intros o st' Ho. apply not_run_log. rewrite Ho. congruence.
  - intros. by apply not_run_alter.
  - intros. by apply not_run_alter.
  - intros. by apply not_run_await.
Qed.

Lemma not_run_timer_resume r resp st :
  r ≠ r0 → not_run r0 st0 st → not_run r0 st0 (timer_resume r resp st).
Proof.
  intros Hne. apply timer_resume_closed.
  - apply not_run_scheduleRefresh.
  - apply not_run_storeAccessKey.
  - intros o st' Ho. apply not_run_log. rewrite Ho. congruence.
  - intros. by apply not_run_alter.
  - intros. by apply not_run_alter.
Qed.

Lemma not_run_step e st st' :
  not_run r0 st0 st → step e st = Some st' → not_run r0 st0 st'.
Proof.
  intros HP. destruct e; cbn; intros H.
  - case_bool_decide; simplify_eq. by apply (not_run_ext st).
  - destruct (deref st r) as [s|] eqn:Hd; [|done].
    case_match; simplify_eq.
    apply andb_true_iff in H0 as [Hin _]. apply bool_decide_eq_true in Hin.
    assert (r ≠ r0) by (intros ->; by destruct HP as (_ & ? & _)).
    apply not_run_timer_callback; [done|].
    destruct HP as (? & Ht & ? & ?). repeat split; try done.
    cbn. intros Hx. apply elem_of_remove in Hx as [? _]. done.
  - case_bool_decide; simplify_eq.
    assert (r ≠ r0) by (intros ->; by destruct HP as (_ & _ & ? & _)).
    apply not_run_timer_resume; [done|].
    destruct HP as (? & ? & Hf & ?). repeat split; try done.
    cbn. intros Hx. apply elem_of_remove in Hx as [? _]. done.
  - simplify_eq. by apply not_run_scheduleRefresh.
  - simplify_eq. apply schedulePurchaseRefreshes_closed; [|done].
    apply not_run_scheduleRefresh.
  - simplify_eq. by apply (not_run_ext st).
  - simplify_eq. by apply (not_run_ext st).
  - simplify_eq. by apply (not_run_ext st).
  - simplify_eq. by apply not_run_storeAccessKey.
Qed.

Lemma not_run_run es st st' :
  not_run r0 st0 st → run es st = Some st' → not_run r0 st0 st'.
Proof.
  revert st. induction es as [|e es IH]; intros st HP H; cbn in H.
  - by simplify_eq.
  - destruct (step e st) as [st1|] eqn:He; [|done].
    eapply IH; [|done]. by eapply not_run_step.
Qed.

End NotRun.

(** ** Refreshes around the expiration of a purchase *)

Lemma mkId_inj_date sub a b : mkId sub a = mkId sub b → a = b.
Proof.
  unfold mkId. intros H.
  apply (inj (String.app sub)) in H. apply (inj (String.app "-")) in H.
  by apply (inj pretty) in H.
Qed.

Lemma schedulePurchaseRefreshes_none purchase st :
  expirationDate purchase = None → schedulePurchaseRefreshes purchase st = st.
Proof. intros HT. unfold schedulePurchaseRefreshes. by rewrite HT. Qed.

Lemma schedulePurchaseRefreshes_eq purchase T st :
  expirationDate purchase = Some T →
  schedulePurchaseRefreshes purchase st =
  let st1 := if in_future T (T - 10000) (now st)
             then scheduleRefresh (purchaseId purchase) (T - 10000) "pre-expiration" st
             else st in
  if in_future T (T + 10000) (now st)
  then scheduleRefresh (purchaseId purchase) (T + 10000) "post-expiration" st1
  else st1.
Proof.
  intros HT. unfold schedulePurchaseRefreshes, in_future, TimeClip. rewrite HT. cbn.
  destruct (is_date T); cbn; [|done].
  assert (Hnow : ∀ b : bool, now (if b then scheduleRefresh (purchaseId purchase)
                                     (T - 10000) "pre-expiration" st else st) = now st).
  { intros [|]; [|done].
    by destruct (scheduleRefresh_frame (purchaseId purchase) (T - 10000)
                   "pre-expiration" st) as (_ & Hnow & _). }
  destruct (is_date (T - 10000)), (is_date (T + 10000)); cbn;
    try rewrite (Hnow (bool_decide (T - 10000 > now st))); done.
Qed.

Lemma in_future_gt T date t : in_future T date t = true → date > t.
Proof.
  unfold in_future. intros H. apply andb_true_iff in H as [_ H].
  by apply bool_decide_eq_true in H.
Qed.

Lemma scheduleRefresh_mono sub date why st r :
  let st' := scheduleRefresh sub date why st in
  (r ∈ schedules st → r ∈ schedules st') ∧
  (r ∈ timers st → r ∈ timers st') ∧
  (∀ s, deref st r = Some s → deref st' r = Some s).
Proof.
  cbv zeta. rewrite scheduleRefresh_eq. destruct (some_id _ st); [done|].
  cbn. repeat split.
  - intros H. apply elem_of_app. by left.
  - intros H. apply elem_of_app. by left.
  - unfold deref. cbn. intros s Hs. by apply lookup_app_l_Some.
Qed.

Lemma scheduleRefresh_fresh_task sub date why st :
  wf st → some_id (mkId sub date) st = false →
  let r := length (heap st) in
  let st' := scheduleRefresh sub date why st in
  (r ∉ schedules st) ∧ (r ∉ timers st) ∧ (r ∉ inflight st) ∧
  r ∈ schedules st' ∧ (date > now st → r ∈ timers st') ∧
  (date <= now st → timers st' = timers st) ∧
  deref st' r = Some (new_schedule sub date why).
Proof.
  intros Hwf Hsome. cbv zeta. rewrite scheduleRefresh_eq, Hsome.
  destruct Hwf as [W1 W2 W3 _ _]. rewrite Forall_forall in W1, W2, W3.
  cbn. repeat split.
  - intros H. apply W1 in H. lia.
  - intros H. apply W2 in H. lia.
  - intros H. apply W3 in H. lia.
  - apply elem_of_app. right. by apply list_elem_of_singleton.
  - intros H. rewrite bool_decide_eq_false_2 by lia.
    apply elem_of_app. right. by apply list_elem_of_singleton.
  - intros H. rewrite bool_decide_eq_true_2 by lia. by rewrite app_nil_r.
  - unfold deref. cbn. rewrite lookup_app_r by lia. by rewrite Nat.sub_diag.
Qed.

Lemma scheduleRefresh_new_ref sub date why st r :
  let st' := scheduleRefresh sub date why st in
  r ∈ schedules st' → r ∉ schedules st →
  some_id (mkId sub date) st = false ∧ r = length (heap st).
Proof.
  cbv zeta. rewrite scheduleRefresh_eq. destruct (some_id _ st); [done|].
  cbn. intros H Hn. apply elem_of_app in H as [?|H]; [done|].
  by apply list_elem_of_singleton in H.
Qed.

Lemma some_id_mono i sub date why st :
  wf st → some_id i st = true → some_id i (scheduleRefresh sub date why st) = true.
Proof.
  intros Hwf. rewrite !some_id_ids, ids_scheduleRefresh by apply Hwf.
  intros H. apply elem_of_app. by left.
Qed.

Lemma some_id_other i sub date why st :
  wf st → i ≠ mkId sub date →
  some_id i st = false → some_id i (scheduleRefresh sub date why st) = false.
Proof.
  intros Hwf Hne H. apply not_true_iff_false. apply not_true_iff_false in H.
  rewrite some_id_ids in *. rewrite ids_scheduleRefresh by apply Hwf.
  rewrite elem_of_app. intros [?|Hin]; [done|].
  destruct (some_id (mkId sub date) st); [by apply elem_of_nil in Hin|].
  by apply list_elem_of_singleton in Hin.
Qed.

Lemma registered_mono sub date why r sub' date' why' st :
  registered sub date why r st →
  registered sub date why r (scheduleRefresh sub' date' why' st).
Proof.
  intros (H1 & H2 & H3).
  destruct (scheduleRefresh_mono sub' date' why' st r) as (M1 & M2 & M3).
  repeat split; auto.
Qed.

(** C2, as stated, fails: a task of "sub_1" is scheduled at 5000 with reason
    "post-change-verification"; for a purchase "sub_1" that expires at 15000,
    with 15000 - 10 s in the future, no task with reason "pre-expiration" is
    registered: the task at 5000 stays as it is and only the task at 25000 is
    added. *)
Lemma pre_expiration_not_registered_when_instant_taken :
  let p := {| purchaseId := "sub_1"; transactionId := "ch_1"; productId := "prod_1";
              expirationDate := Some 15000; renewalIntent := Renew;
              isTrialPeriod := false |} in
  let st := scheduleRefresh "sub_1" 5000 "post-change-verification"
              (fresh empty_storage 0) in
  15000 - 10000 > now st ∧
  heap (schedulePurchaseRefreshes p st) =
    [new_schedule "sub_1" 5000 "post-change-verification";
     new_schedule "sub_1" 25000 "post-expiration"] ∧
  schedules (schedulePurchaseRefreshes p st) = [0%nat; 1%nat].
Proof. cbv zeta. repeat split; vm_compute; reflexivity. Qed.

(** Beyond the range of dates no task is created either: the expiration
    8.64e15 is the last instant a [Date] can hold, [new Date] of 10 s later
    is an Invalid Date, and only the task 10 s before is added. *)
Lemma post_expiration_not_registered_beyond_dates :
  let p := {| purchaseId := "sub_1"; transactionId := "ch_1"; productId := "prod_1";
              expirationDate := Some 8640000000000000; renewalIntent := Renew;
              isTrialPeriod := false |} in
  let st := fresh empty_storage 0 in
  8640000000000000 + 10000 > now st ∧
  heap (schedulePurchaseRefreshes p st) =
    [new_schedule "sub_1" 8639999999990000 "pre-expiration"].
Proof. cbv zeta. split; vm_compute; reflexivity. Qed.

(** [scheduleRefresh] called, or not, for an instant in the future: what it
    appends to the state. *)
Lemma scheduleRefresh_when (b : bool) sub date why st :
  (b = true → date > now st) →
  let st' := if b then scheduleRefresh sub date why st else st in
  let news := if b && negb (some_id (mkId sub date) st)
              then [new_schedule sub date why] else [] in
  let refs := seq (length (heap st)) (length news) in
  heap st' = heap st ++ news ∧ schedules st' = schedules st ++ refs ∧
  timers st' = timers st ++ refs ∧ storage st' = storage st ∧
  now st' = now st ∧ inflight st' = inflight st ∧ trace st' = trace st.
Proof.
  intros Hb. cbv zeta. destruct b; cbn [andb].
  - rewrite scheduleRefresh_eq. destruct (some_id (mkId sub date) st); cbn.
    + by rewrite !app_nil_r.
    + rewrite (bool_decide_eq_false_2 (date <= now st)) by (specialize (Hb eq_refl); lia).
      done.
  - cbn. by rewrite !app_nil_r.
Qed.

(** C2, amended. In every state the page reaches, for a purchase whose
    expiration date is [T], [schedulePurchaseRefreshes] changes the state as
    follows and in no other way. Call an instant wanted when it and [T] are
    time values a [Date] can hold, it is strictly in the future, and no task
    of the schedule list has the id derived from the purchase id and the
    instant. Then
    - the tasks created are: a task at [T - 10 s] with reason
      "pre-expiration" if that instant is wanted, then a task at [T + 10 s]
      with reason "post-expiration" if that instant is wanted; they are put
      at the end of the schedule list, each with an armed timer;
    - the tasks that were there are kept as they are, in the list and behind
      the timers: nothing is overwritten, removed or duplicated;
    - the stored data, the clock, the pending requests and what was observed
      are as before;
    - a purchase expired 10 s ago or more leaves the state as it is;
    - a task that [scheduleRefresh] adds for an instant that is not in the
      future gets no timer, and whatever happens later its callback never
      runs: no lookup, no failure, hence no retry. *)
Theorem schedulePurchaseRefreshes_future_only st purchase T :
  reachable st →
  expirationDate purchase = Some T →
  let pid := purchaseId purchase in
  let st' := schedulePurchaseRefreshes purchase st in
  let wanted date :=
    in_future T date (now st) && negb (some_id (mkId pid date) st) in
  let news :=
    (if wanted (T - 10000)
     then [new_schedule pid (T - 10000) "pre-expiration"] else []) ++
    (if wanted (T + 10000)
     then [new_schedule pid (T + 10000) "post-expiration"] else []) in
  let refs := seq (length (heap st)) (length news) in
  heap st' = heap st ++ news ∧
  schedules st' = schedules st ++ refs ∧
  timers st' = timers st ++ refs ∧
  storage st' = storage st ∧ now st' = now st ∧
  inflight st' = inflight st ∧ trace st' = trace st ∧
  (T + 10000 <= now st → st' = st) ∧
  (∀ sub date why r es st1,
     date <= now st →
     r ∈ schedules (scheduleRefresh sub date why st) → r ∉ schedules st →
     run es (scheduleRefresh sub date why st) = Some st1 →
     deref (scheduleRefresh sub date why st) r = Some (new_schedule sub date why) ∧
     not_run r (scheduleRefresh sub date why st) st1).
Proof.
  intros Hr HT pid st' wanted news refs. apply reachable_wf in Hr.
  assert (Heq := schedulePurchaseRefreshes_eq purchase T st HT).
  fold pid st' in Heq. cbv zeta in Heq.
  set (b1 := in_future T (T - 10000) (now st)) in *.
  set (b2 := in_future T (T + 10000) (now st)) in *.
  set (st1 := if b1 then scheduleRefresh pid (T - 10000) "pre-expiration" st
              else st) in *.
  destruct (scheduleRefresh_when b1 pid (T - 10000) "pre-expiration" st)
    as (A1 & A2 & A3 & A4 & A5 & A6 & A7); [by apply in_future_gt|].
  fold st1 in A1, A2, A3, A4, A5, A6, A7.
  destruct (scheduleRefresh_when b2 pid (T + 10000) "post-expiration" st1)
    as (B1 & B2 & B3 & B4 & B5 & B6 & B7).
  { rewrite A5. by apply in_future_gt. }
  rewrite <- Heq in B1, B2, B3, B4, B5, B6, B7.
  assert (Hsame : some_id (mkId pid (T + 10000)) st1 =
                  some_id (mkId pid (T + 10000)) st).
  { unfold st1. destruct b1; [|done].
    destruct (some_id (mkId pid (T + 10000)) st) eqn:Hs.
    - by apply some_id_mono.
    - apply some_id_other; try done.
      intros Hid. apply mkId_inj_date in Hid. lia. }
  rewrite Hsame in B1, B2, B3.
  assert (Hnews : news =
            (if b1 && negb (some_id (mkId pid (T - 10000)) st)
             then [new_schedule pid (T - 10000) "pre-expiration"] else []) ++
            (if b2 && negb (some_id (mkId pid (T + 10000)) st)
             then [new_schedule pid (T + 10000) "post-expiration"] else []))
    by done.
  split_and!.
  - rewrite B1, A1, Hnews. by rewrite <- app_assoc.
  - rewrite B2, A2, A1. unfold refs. rewrite Hnews.
    rewrite !length_app, seq_app, <- app_assoc. done.
  - rewrite B3, A3, A1. unfold refs. rewrite Hnews.
    rewrite !length_app, seq_app, <- app_assoc. done.
  - by rewrite B4.
  - by rewrite B5.
  - by rewrite B6.
  - by rewrite B7.
  - intros Hexp. rewrite Heq. unfold st1, b1, b2, in_future.
    rewrite (bool_decide_eq_false_2 (T - 10000 > now st)) by lia.
    rewrite (bool_decide_eq_false_2 (T + 10000 > now st)) by lia.
    by rewrite !andb_false_r.
  - intros sub date why r es st2 Hpast Hin Hnot Hrun.
    destruct (scheduleRefresh_new_ref _ _ _ _ _ Hin Hnot) as (Hfree & ->).
    destruct (scheduleRefresh_fresh_task sub date why st Hr Hfree)
      as (_ & F1 & F2 & _ & _ & F3 & F4).
    split; [done|].
    eapply not_run_run; [by rewrite F4| |exact Hrun].
    apply not_run_refl.
    + by rewrite F3.
    + by destruct (scheduleRefresh_frame sub date why st) as (_ & _ & -> & _).
Qed.

Lemma schedulePurchaseRefreshes_future_only_witness :
  let p := {| purchaseId := "sub_1"; transactionId := "ch_1"; productId := "prod_1";
              expirationDate := Some 50000; renewalIntent := Renew;
              isTrialPeriod := false |} in
  let st := scheduleRefresh "sub_1" 40000 "post-change-verification"
              (fresh empty_storage 0) in
  heap (schedulePurchaseRefreshes p st) =
    [new_schedule "sub_1" 40000 "post-change-verification";
     new_schedule "sub_1" 60000 "post-expiration"] ∧
  schedules (schedulePurchaseRefreshes p st) = [0%nat; 1%nat] ∧
  timers (schedulePurchaseRefreshes p st) = [0%nat; 1%nat].
Proof.
  cbv zeta.
  match goal with
  | |- heap (schedulePurchaseRefreshes ?p ?st) = _ ∧ _ =>
      destruct (schedulePurchaseRefreshes_future_only st p 50000)
        as (H1 & H2 & H3 & _)
  end.
  - exists empty_storage, 0,
      [CallScheduleRefresh "sub_1" 40000 "post-change-verification"].
    reflexivity.
  - reflexivity.
  - split_and!; [rewrite H1|rewrite H2|rewrite H3]; vm_compute; reflexivity.
Defined.

(** ** Failure of a task *)

Lemma some_id_same_ids i st st' : ids st' = ids st → some_id i st' = some_id i st.
Proof.
  intros H. apply eq_true_iff_eq. by rewrite !some_id_ids, H.
Qed.

Lemma ids_alter (f : ScheduledRefresh → ScheduledRefresh) r st :
  (∀ s, id (f s) = id s) → ids (with_heap (alter f r (heap st)) st) = ids st.
Proof.
  intros Hf. unfold ids, deref. cbn. apply omap_pointwise.
  intros x. by apply lookup_alter_id.
Qed.

Lemma getPurchases_begin_storage ident accessKey st st' :
  storage st' = storage st →
  (getPurchases_begin ident accessKey st').1 = (getPurchases_begin ident accessKey st).1.
Proof.
  intros H.
  unfold getPurchases_begin, getAccessKey, getSubscriptionId, getSessionId,
    _getStoredAccessKeys.
  rewrite H. repeat case_match; simplify_eq; done.
Qed.

Lemma getPurchases_begin_raised ident accessKey st msg :
  (getPurchases_begin ident accessKey st).1 = Raised msg →
  (getPurchases_begin ident accessKey st).2 = st.
Proof.
  unfold getPurchases_begin. repeat case_match; simplify_eq; done.
Qed.

Lemma getPurchases_end_failing resp st :
  failing resp = true → ∃ msg, getPurchases_end resp st = (Throw msg, st).
Proof. destruct resp as [|m|[] ps ks]; cbn; try done; eauto. Qed.

(** An event on which the lookup of [r] fails runs the [catch] and [finally]
    blocks on a state that differs from the one before the event by the
    timer or the request of [r] and by its [inProgress] flag. *)
Lemma lookup_fails_step e r s st :
  wf st → deref st r = Some s → lookup_fails e r st →
  ∃ stp b,
    step e st = Some (on_failure r stp) ∧
    wf stp ∧ (r ∉ timers stp) ∧ (r ∉ inflight stp) ∧
    deref stp r = Some (with_inProgress b s) ∧ completed s = false ∧
    schedules stp = schedules st ∧ now stp = now st ∧ ids stp = ids st ∧
    length (heap stp) = length (heap st).
Proof.
  intros Hwf Hd. destruct e; try done; cbn [lookup_fails].
  - intros (-> & Hin & s' & msg & Hd' & Hdue & Hc & Hfree & Hraise).
    rewrite Hd in Hd'. simplify_eq.
    set (st1 := with_timers (remove r (timers st)) st).
    set (stp := log (ObsLookup r) (set_inProgress r true st1)).
    exists stp, true.
    assert (Hnf : r ∉ inflight st) by (by apply wf_timer_not_inflight).
    split_and!.
    + cbn. rewrite Hd. rewrite bool_decide_eq_true_2 by done.
      rewrite bool_decide_eq_true_2 by done. cbn. f_equal.
      unfold timer_callback. fold st1. 
      replace (deref st1 r) with (Some s') by done.
      rewrite Hc. replace (find_inProgress (subscriptionId s') st1) with false by done.
      fold stp.
      assert (E : (getPurchases_begin (Some (subscriptionId s')) None stp).1 =
                  Raised msg).
      { by rewrite (getPurchases_begin_storage _ _ st stp). }
      pose proof (getPurchases_begin_raised _ _ _ _ E) as E2.
      destruct (getPurchases_begin _ _ stp) as [o st2]. cbn in E, E2. by subst.
    + by apply wf_log, wf_set_inProgress, wf_remove_timer.
    + cbn. intros Hx. apply elem_of_remove in Hx as [_ ?]. done.
    + done.
    + unfold deref in *. cbn. by rewrite list_lookup_alter_eq, Hd.
    + done.
    + done.
    + done.
    + by apply (ids_alter (with_inProgress true) r st1).
    + cbn. by rewrite length_alter.
  - intros (-> & Hin & Hfail).
    destruct (wf_waiting _ Hwf r Hin) as (Hnt & s' & Hd' & Hc & Hp).
    rewrite Hd in Hd'. simplify_eq.
    exists (with_inflight (remove r (inflight st)) st), (inProgress s').
    split_and!; try done.
    + cbn. rewrite bool_decide_eq_true_2 by done. f_equal.
      unfold timer_resume.
      by destruct (getPurchases_end_failing resp
                     (with_inflight (remove r (inflight st)) st) Hfail) as [msg ->].
    + by apply wf_remove_inflight.
    + cbn. intros Hx. apply elem_of_remove in Hx as [_ ?]. done.
    + unfold deref in *. cbn. rewrite Hd. by destruct s'.
Qed.

(** The [catch] and [finally] blocks, for a task that has no timer and waits
    for no response. *)
Lemma on_failure_spec r sp stp :
  wf stp → deref stp r = Some sp → r ∉ timers stp → r ∉ inflight stp →
  let sub := subscriptionId sp in
  let date := now stp + 30000 in
  let why := "retry-" +:+ reason sp in
  let n := length (heap stp) in
  let st' := on_failure r stp in
  wf st' ∧ deref st' r = Some (with_inProgress false sp) ∧
  (r ∉ timers st') ∧ (r ∉ inflight st') ∧
  if negb (startsWith (reason sp) "retry-") && negb (some_id (mkId sub date) stp)
  then schedules st' = schedules stp ++ [n] ∧ length (heap st') = S n ∧
       registered sub date why n st'
  else schedules st' = schedules stp ∧ length (heap st') = n.
Proof.
  intros Hwf Hd Ht Hf. cbv zeta.
  assert (Hlt : (r < length (heap stp))%nat) by (by apply lookup_lt_Some in Hd).
  destruct (inflight_closed r stp) as (C1 & C2 & C3 & C4 & C5).
  assert (HP : wf (on_failure r stp) ∧ (r ∉ inflight (on_failure r stp)) ∧
               timers stp ⊆ timers (on_failure r stp)).
  { apply (on_failure_closed _ C1 r (λ o st _, C3 o st) C4 stp).
    split; [done|]. split; [done|]. set_solver. }
  destruct HP as (HP1 & HP2 & _).
  split; [done|split; [|split; [|split; [done|]]]].
  - unfold on_failure, deref in *. cbn [log heap]. rewrite Hd.
    unfold set_inProgress. cbn [with_heap heap].
    rewrite list_lookup_alter_eq.
    destruct (negb (startsWith (reason sp) "retry-")).
    + destruct (scheduleRefresh_mono (subscriptionId sp)
                  (now (log (ObsError r) stp) + 30000) ("retry-" +:+ reason sp)
                  (log (ObsError r) stp) r) as (_ & _ & M).
      unfold deref in M. by rewrite (M sp Hd).
    + cbn. by rewrite Hd.
  - unfold on_failure, deref in *. cbn [log heap]. rewrite Hd.
    destruct (negb (startsWith (reason sp) "retry-")); [|done].
    rewrite scheduleRefresh_eq. destruct (some_id _ _); [done|].
    cbn. rewrite elem_of_app. intros [?|Hin]; [done|].
    case_bool_decide; [by apply elem_of_nil in Hin|].
    apply list_elem_of_singleton in Hin. lia.
  - unfold on_failure, deref in *. cbn [log heap]. rewrite Hd.
    destruct (negb (startsWith (reason sp) "retry-")); cbn [andb];
      [|by cbn; rewrite length_alter].
    rewrite scheduleRefresh_eq.
    replace (some_id (mkId (subscriptionId sp) (now (log (ObsError r) stp) + 30000))
               (log (ObsError r) stp))
      with (some_id (mkId (subscriptionId sp) (now stp + 30000)) stp) by done.
    destruct (some_id _ stp); cbn [negb]; [by cbn; rewrite length_alter|].
    cbn. rewrite length_alter, length_app. cbn.
    split; [done|]. split; [lia|].
    unfold registered, deref. cbn. split_and!.
    + apply elem_of_app. right. by apply list_elem_of_singleton.
    + rewrite bool_decide_eq_false_2 by lia.
      apply elem_of_app. right. by apply list_elem_of_singleton.
    + rewrite list_lookup_alter_ne by lia.
      rewrite lookup_app_r by lia. by rewrite Nat.sub_diag.
Qed.

Lemma retry_reason_startsWith why : startsWith ("retry-" +:+ why) "retry-" = true.
Proof. unfold startsWith. cbn. by destruct why. Qed.

(** C3, as stated, fails: the task of "sub_1" due at 1000 fails at 1000 with
    reason "pre-expiration", a task of "sub_1" is already scheduled at
    31000 = 1000 + 30 s, and no retry task is created. *)
Lemma retry_not_created_when_instant_taken :
  ∃ st st',
    run [CallScheduleRefresh "sub_1" 1000 "pre-expiration";
         CallScheduleRefresh "sub_1" 31000 "post-expiration";
         Tick 1000] (fresh empty_storage 0) = Some st ∧
    lookup_fails (Fire 0%nat) 0%nat st ∧
    step (Fire 0%nat) st = Some st' ∧
    reason <$> deref st 0%nat = Some "pre-expiration" ∧
    now st + 30000 = 31000 ∧
    heap st' = heap st ∧ schedules st' = schedules st ∧
    reason <$> heap st' = ["pre-expiration"; "post-expiration"] ∧
    trace st' = [ObsLookup 0; ObsError 0].
Proof.
  eexists. eexists. split; [vm_compute; reflexivity|].
  split.
  { cbn. split; [done|]. split; [apply list_elem_of_here|].
    eexists. eexists. split; [reflexivity|].
    split; [cbn; lia|]. repeat split. }
  split; [vm_compute; reflexivity|].
  repeat split.
Qed.

(** C3, amended. When the lookup of a task fails and the reason of the task
    does not start with "retry-": if no task of the schedule list has the id
    derived from the task's subscription and now + 30 s, exactly one task is
    added, for the same subscription, at now + 30 s, with reason "retry-"
    followed by the reason of the failed task, and its timer is armed; if
    such a task is in the list already, nothing is added. When the reason
    starts with "retry-", as the reason of every task added this way does,
    nothing is added. *)
Theorem failed_task_retry e r s st :
  reachable st → deref st r = Some s → lookup_fails e r st →
  let sub := subscriptionId s in
  let date := now st + 30000 in
  let why := "retry-" +:+ reason s in
  let n := length (heap st) in
  ∃ st', step e st = Some st' ∧
    (startsWith (reason s) "retry-" = false → some_id (mkId sub date) st = false →
     schedules st' = schedules st ++ [n] ∧ length (heap st') = S n ∧
     registered sub date why n st' ∧ startsWith why "retry-" = true) ∧
    (startsWith (reason s) "retry-" = false → some_id (mkId sub date) st = true →
     schedules st' = schedules st ∧ length (heap st') = n) ∧
    (startsWith (reason s) "retry-" = true →
     schedules st' = schedules st ∧ length (heap st') = n).
Proof.
  intros Hr Hd Hfail. apply reachable_wf in Hr. cbv zeta.
  destruct (lookup_fails_step e r s st Hr Hd Hfail)
    as (stp & b & Hstep & Hwf & Ht & Hf & Hdp & Hc & Hs & Hnow & Hids & Hlen).
  exists (on_failure r stp). split; [done|].
  destruct (on_failure_spec r _ stp Hwf Hdp Ht Hf) as (_ & _ & _ & _ & H).
  cbn [with_inProgress reason subscriptionId] in H.
  rewrite Hnow, Hs, Hlen, (some_id_same_ids _ st stp Hids) in H.
  split_and!.
  - intros H1 H2. rewrite H1, H2 in H. cbn in H.
    destruct H as (? & ? & ?). split_and!; try done.
    apply retry_reason_startsWith.
  - intros H1 H2. by rewrite H1, H2 in H.
  - intros H1. by rewrite H1 in H.
Qed.

Lemma failed_task_retry_witness :
  ∃ st st',
    run [CallScheduleRefresh "sub_1" 1000 "pre-expiration"; Tick 1000]
      (fresh empty_storage 0) = Some st ∧
    step (Fire 0%nat) st = Some st' ∧
    schedules st' = schedules st ++ [1%nat] ∧
    registered "sub_1" 31000 "retry-pre-expiration" 1%nat st'.
Proof.
  eexists. eexists. split; [vm_compute; reflexivity|].
  match goal with
  | |- step _ ?st = _ ∧ _ =>
      destruct (failed_task_retry (Fire 0%nat) 0%nat
                  (new_schedule "sub_1" 1000 "pre-expiration") st)
        as (st' & Hstep & H & _)
  end.
  - exists empty_storage, 0,
      [CallScheduleRefresh "sub_1" 1000 "pre-expiration"; Tick 1000].
    vm_compute. reflexivity.
  - reflexivity.
  - cbn. split; [done|]. split; [apply list_elem_of_here|].
    eexists. eexists. split; [reflexivity|].
    split; [cbn; lia|]. repeat split.
  - destruct H as (H1 & _ & H3 & _); [reflexivity|vm_compute; reflexivity|].
    vm_compute in Hstep. injection Hstep as <-.
    split; [vm_compute; reflexivity|]. split; [exact H1|exact H3].
Defined.

(** C5, as stated, fails: the request of the task of "sub_1" fails at time
    1050; after the failure, the [completed] flag of the task is still
    false. *)
Lemma failed_task_not_completed :
  ∃ st st',
    run [CallStoreAccessKey "sub_1" "k1";
         CallScheduleRefresh "sub_1" 1000 "pre-expiration";
         Tick 1000; Fire 0%nat; Tick 50] (fresh empty_storage 0) = Some st ∧
    lookup_fails (Settle 0%nat PurchasesFailed) 0%nat st ∧
    step (Settle 0%nat PurchasesFailed) st = Some st' ∧
    deref st' 0%nat =
      Some {| id := "sub_1-1000"; subscriptionId := "sub_1"; scheduledAt := 1000;
              completed := false; inProgress := false;
              reason := "pre-expiration" |} ∧
    trace st' = [ObsLookup 0; ObsFetch (GetPurchases "sub_1" "k1"); ObsError 0].
Proof.
  eexists. eexists. split; [vm_compute; reflexivity|].
  split; [cbn; split; [done|]; split; [apply list_elem_of_here|done]|].
  split; [vm_compute; reflexivity|].
  split; reflexivity.
Qed.

(** C5, amended. When the lookup of a task fails, the [completed] flag of the
    task stays false and its [inProgress] flag is reset to false; the failure
    is absorbed, and the task is not run again: it has no timer any more and
    never gets one. *)
Theorem failed_task_stays_uncompleted e r s st :
  reachable st → deref st r = Some s → lookup_fails e r st →
  ∃ st', step e st = Some st' ∧
    completed s = false ∧
    deref st' r = Some (with_inProgress false s) ∧
    ∀ es st2, run es st' = Some st2 → not_run r st' st2.
Proof.
  intros Hr Hd Hfail. apply reachable_wf in Hr.
  destruct (lookup_fails_step e r s st Hr Hd Hfail)
    as (stp & b & Hstep & Hwf & Ht & Hf & Hdp & Hc & _).
  exists (on_failure r stp). split; [done|]. split; [done|].
  destruct (on_failure_spec r _ stp Hwf Hdp Ht Hf) as (_ & Hd' & Ht' & Hf' & _).
  split; [exact Hd'|].
  intros es st2 Hrun. eapply not_run_run; [by rewrite Hd'| |exact Hrun].
  by apply not_run_refl.
Qed.

Lemma failed_task_stays_uncompleted_witness :
  ∃ st st',
    run [CallScheduleRefresh "sub_1" 1000 "pre-expiration"; Tick 1000]
      (fresh empty_storage 0) = Some st ∧
    step (Fire 0%nat) st = Some st' ∧
    deref st' 0%nat =
      Some (with_inProgress false (new_schedule "sub_1" 1000 "pre-expiration")).
Proof.
  eexists. eexists. split; [vm_compute; reflexivity|].
  match goal with
  | |- step _ ?st = _ ∧ _ =>
      destruct (failed_task_stays_uncompleted (Fire 0%nat) 0%nat
                  (new_schedule "sub_1" 1000 "pre-expiration") st)
        as (st' & Hstep & _ & H & _)
  end.
  - exists empty_storage, 0,
      [CallScheduleRefresh "sub_1" 1000 "pre-expiration"; Tick 1000].
    vm_compute. reflexivity.
  - reflexivity.
  - cbn. split; [done|]. split; [apply list_elem_of_here|].
    eexists. eexists. split; [reflexivity|].
    split; [cbn; lia|]. repeat split.
  - vm_compute in Hstep. injection Hstep as <-.
    split; [vm_compute; reflexivity|exact H].
Defined.

(** ** Reset of the scheduler *)

(** After [clearSchedules] the callback of a task that was pending still
    runs when its timer fires, and calls [getPurchases]: the list it searches
    for a task in progress is empty. *)
Lemma fire_after_clearSchedules r s st :
  r ∈ timers st → deref st r = Some s → completed s = false →
  scheduledAt s <= now st →
  ∃ st', step (Fire r) (clearSchedules st) = Some st' ∧ ObsLookup r ∈ trace st'.
Proof.
  intros Hin Hd Hc Hdue.
  set (st0 := with_timers (remove r (timers st)) (clearSchedules st)).
  assert (E : step (Fire r) (clearSchedules st) = Some (timer_callback r st0)).
  { cbn [step]. replace (deref (clearSchedules st) r) with (Some s) by done.
    replace (timers (clearSchedules st)) with (timers st) by done.
    replace (now (clearSchedules st)) with (now st) by done.
    by rewrite !bool_decide_eq_true_2 by done. }
  rewrite E. eexists. split; [done|].
  unfold timer_callback.
  replace (deref st0 r) with (Some s) by done. rewrite Hc.
  replace (find_inProgress (subscriptionId s) st0) with false by done.
  set (P := λ st1 : State, ObsLookup r ∈ trace st1).
  assert (C1 : ∀ sub date why st1, P st1 → P (scheduleRefresh sub date why st1)).
  { intros sub date why st1. unfold P.
    by destruct (scheduleRefresh_frame sub date why st1) as (_ & _ & _ & ->). }
  assert (C3 : ∀ o st1, P st1 → P (log o st1)).
  { intros o st1 H. unfold P. cbn. apply elem_of_app. by left. }
  assert (HP : P (log (ObsLookup r) (set_inProgress r true st0))).
  { unfold P. cbn. apply elem_of_app. right. by apply list_elem_of_singleton. }
  pose proof (getPurchases_begin_closed P (λ q, C3 (ObsFetch q))
                (Some (subscriptionId s)) None _ HP) as H.
  destruct (getPurchases_begin _ _ _) as [[ps|msg|] st2]; cbn in H.
  - apply (on_success_closed P r); auto.
  - apply (on_failure_closed P C1 r); auto.
  - done.
Qed.

(** C9 does not hold of the code: [clearSchedules] empties the list and
    leaves the timers armed. A task of "sub_1" pending at the reset still
    runs at its time: it calls [getPurchases] and the request is sent. The
    same after [clearStoredData]: the task still runs, its lookup throws for
    want of an access key, and a retry task is added to the emptied list. *)
Theorem clearSchedules_leaves_timers_armed :
  (∃ st st',
     run [CallStoreAccessKey "sub_1" "k1";
          CallScheduleRefresh "sub_1" 1000 "pre-expiration";
          CallClearSchedules] (fresh empty_storage 0) = Some st ∧
     schedules st = [] ∧ timers st = [0%nat] ∧
     run [Tick 1000; Fire 0%nat] st = Some st' ∧
     trace st' = [ObsLookup 0; ObsFetch (GetPurchases "sub_1" "k1")] ∧
     inProgress <$> deref st' 0%nat = Some true) ∧
  (∃ st st',
     run [CallStoreAccessKey "sub_1" "k1";
          CallScheduleRefresh "sub_1" 1000 "pre-expiration";
          CallClearStoredData] (fresh empty_storage 0) = Some st ∧
     schedules st = [] ∧ timers st = [0%nat] ∧
     run [Tick 1000; Fire 0%nat] st = Some st' ∧
     trace st' = [ObsLookup 0; ObsError 0] ∧
     schedules st' = [1%nat] ∧
     deref st' 1%nat = Some (new_schedule "sub_1" 31000 "retry-pre-expiration")).
Proof.
  split; eexists; eexists;
    (split; [vm_compute; reflexivity|]);
    (split; [reflexivity|]); (split; [reflexivity|]);
    (split; [vm_compute; reflexivity|]); repeat split.
Qed.

(** ** At most one lookup in progress for a subscription *)

(** C4 does not hold of the code after a reset: the callback looks for a
    task in progress in [this.schedules] only. Two tasks of "sub_1" are
    pending, [clearSchedules] empties the list, the first task runs and waits
    for its response, and when the timer of the second fires it is not
    skipped: both are in progress together, with two requests sent. *)
Theorem two_lookups_in_progress_after_clear :
  ∃ st st',
    run [CallStoreAccessKey "sub_1" "k1";
         CallScheduleRefresh "sub_1" 1000 "pre-expiration";
         CallScheduleRefresh "sub_1" 2000 "post-expiration";
         CallClearSchedules;
         Tick 1000; Fire 0%nat; Tick 1000] (fresh empty_storage 0) = Some st ∧
    (inProgress <$> deref st 0%nat = Some true ∧
     subscriptionId <$> deref st 0%nat = Some "sub_1" ∧
     subscriptionId <$> deref st 1%nat = Some "sub_1") ∧
    step (Fire 1%nat) st = Some st' ∧
    inProgress <$> heap st' = [true; true] ∧
    inflight st' = [0%nat; 1%nat] ∧
    trace st' = [ObsLookup 0; ObsFetch (GetPurchases "sub_1" "k1");
                 ObsLookup 1; ObsFetch (GetPurchases "sub_1" "k1")].
Proof.
  eexists. eexists. split; [vm_compute; reflexivity|].
  split; [repeat split|].
  split; [vm_compute; reflexivity|].
  repeat split.
Qed.

(** Without a reset the exclusion holds: every task is in the list the
    callback searches. *)

Lemma exclusive_ext st st' : heap st' = heap st → exclusive st → exclusive st'.
Proof. unfold exclusive, deref. by intros ->. Qed.

Lemma listed_exclusive_ext st st' :
  heap st' = heap st → schedules st' = schedules st →
  listed_exclusive st → listed_exclusive st'.
Proof.
  intros Hh Hs [H1 H2]. split; [|by apply (exclusive_ext st)].
  unfold all_listed. by rewrite Hh, Hs.
Qed.

Lemma listed_exclusive_scheduleRefresh sub date why st :
  listed_exclusive st → listed_exclusive (scheduleRefresh sub date why st).
Proof.
  intros [H1 H2]. rewrite scheduleRefresh_eq. destruct (some_id _ st); [done|].
  split.
  - unfold all_listed in *. cbn. rewrite H1, length_app. cbn.
    by rewrite seq_app.
  - intros r1 r2 s1 s2. unfold deref. cbn. intros Hd1 Hd2 Hp1 Hp2 Hsub.
    apply lookup_app_Some in Hd1 as [Hd1|[Hl1 Hd1]];
      apply lookup_app_Some in Hd2 as [Hd2|[Hl2 Hd2]].
    + by apply (H2 r1 r2 s1 s2).
    + apply list_lookup_singleton_Some in Hd2 as [_ <-]. done.
    + apply list_lookup_singleton_Some in Hd1 as [_ <-]. done.
    + apply list_lookup_singleton_Some in Hd1 as [_ <-]. done.
Qed.

Lemma listed_exclusive_alter (f : ScheduledRefresh → ScheduledRefresh) r st :
  (∀ s, subscriptionId (f s) = subscriptionId s) →
  (∀ s, inProgress (f s) = true → inProgress s = true) →
  listed_exclusive st → listed_exclusive (with_heap (alter f r (heap st)) st).
Proof.
  intros Hsub Hp [H1 H2]. split.
  - unfold all_listed in *. cbn. by rewrite length_alter.
  - intros r1 r2 s1 s2. unfold deref. cbn. intros Hd1 Hd2 Hp1 Hp2 Heq.
    assert (A : ∀ r' s', alter f r (heap st) !! r' = Some s' →
                ∃ s0, heap st !! r' = Some s0 ∧
                      subscriptionId s0 = subscriptionId s' ∧
                      (inProgress s' = true → inProgress s0 = true)).
    { intros r' s' H. destruct (decide (r = r')) as [->|Hne].
      - rewrite list_lookup_alter_eq in H.
        destruct (heap st !! r') as [s0|]; simplify_eq/=.
        exists s0. split; [done|]. split; [by rewrite Hsub|apply Hp].
      - rewrite list_lookup_alter_ne in H by done. eauto. }
    destruct (A _ _ Hd1) as (a1 & Ha1 & Hs1 & Hi1).
    destruct (A _ _ Hd2) as (a2 & Ha2 & Hs2 & Hi2).
    apply (H2 r1 r2 a1 a2); auto. congruence.
Qed.

Lemma find_inProgress_false sub st r s :
  find_inProgress sub st = false → r ∈ schedules st → deref st r = Some s →
  subscriptionId s = sub → inProgress s = false.
Proof.
  unfold find_inProgress. intros H Hin Hd Hsub.
  destruct (inProgress s) eqn:Hp; [|done].
  apply not_true_iff_false in H. destruct H.
  apply existsb_exists. exists r. split; [by apply list_elem_of_In|].
  rewrite Hd, Hp. by rewrite bool_decide_eq_true_2.
Qed.

Lemma listed_exclusive_start r s st :
  listed_exclusive st → deref st r = Some s →
  find_inProgress (subscriptionId s) st = false →
  listed_exclusive (set_inProgress r true st).
Proof.
  intros [H1 H2] Hd Hfree. split.
  - unfold all_listed in *. cbn. by rewrite length_alter.
  - assert (Hno : ∀ r' s', deref st r' = Some s' →
                  subscriptionId s' = subscriptionId s → inProgress s' = false).
    { intros r' s' Hd' Hs'. eapply find_inProgress_false; [done| |done..].
      rewrite H1. apply elem_of_seq. apply lookup_lt_Some in Hd'. lia. }
    intros r1 r2 s1 s2. unfold deref in *. cbn. intros Hd1 Hd2 Hp1 Hp2 Heq.
    destruct (decide (r = r1)) as [<-|Hn1]; destruct (decide (r = r2)) as [<-|Hn2];
      try done.
    + rewrite list_lookup_alter_eq, Hd in Hd1. simplify_eq/=.
      rewrite list_lookup_alter_ne in Hd2 by done.
      rewrite (Hno r2 s2 Hd2) in Hp2; [done|]. by rewrite <- Heq.
    + rewrite list_lookup_alter_eq, Hd in Hd2. simplify_eq/=.
      rewrite list_lookup_alter_ne in Hd1 by done.
      rewrite (Hno r1 s1 Hd1) in Hp1; [done|]. by rewrite Heq.
    + rewrite list_lookup_alter_ne in Hd1, Hd2 by done.
      by apply (H2 r1 r2 s1 s2).
Qed.

Lemma listed_exclusive_closed r :
  let P := listed_exclusive in
  (∀ sub date why st, P st → P (scheduleRefresh sub date why st)) ∧
  (∀ ident accessKey st, P st → P (_storeAccessKey ident accessKey st)) ∧
  (∀ o st, P st → P (log o st)) ∧
  (∀ st, P st → P (set_inProgress r false st)) ∧
  (∀ st, P st → P (set_completed r true st)) ∧
  (∀ st, P st → P (with_inflight (inflight st ++ [r]) st)).
Proof.
  cbv zeta. split_and!.
  - apply listed_exclusive_scheduleRefresh.
  - intros. apply (listed_exclusive_ext st); try done;
      unfold _storeAccessKey; by case_match.
  - intros. by apply (listed_exclusive_ext st).
  - intros. by apply listed_exclusive_alter.
  - intros. by apply listed_exclusive_alter.
  - intros. by apply (listed_exclusive_ext st).
Qed.

Lemma listed_exclusive_step e st st' :
  no_reset e = true → listed_exclusive st → step e st = Some st' →
  listed_exclusive st'.
Proof.
  intros Hnr HJ. destruct e; try done; cbn; intros H.
  - case_bool_decide; simplify_eq. by apply (listed_exclusive_ext st).
  - destruct (deref st r) as [s|] eqn:Hd; [|done].
    case_match; simplify_eq.
    destruct (listed_exclusive_closed r) as (C1 & C2 & C3 & C4 & C5 & C6).
    set (st1 := with_timers (remove r (timers st)) st).
    assert (HJ1 : listed_exclusive st1)
      by (by apply (listed_exclusive_ext st)).
    unfold timer_callback. replace (deref st1 r) with (Some s) by done.
    destruct (completed s); [done|].
    destruct (find_inProgress (subscriptionId s) st1) eqn:Hfree; [by apply C3|].
    set (st2 := log (ObsLookup r) (set_inProgress r true st1)).
    assert (HJ2 : listed_exclusive st2)
      by (apply C3; by apply (listed_exclusive_start r s)).
    pose proof (getPurchases_begin_closed listed_exclusive (λ q, C3 (ObsFetch q))
                  (Some (subscriptionId s)) None st2 HJ2) as HJ3.
    destruct (getPurchases_begin _ _ st2) as [[ps|msg|] st3]; cbn in HJ3.
    + unfold on_success. by apply C4, C5.
    + unfold on_failure. apply C4. repeat case_match; auto.
    + by apply C6.
  - case_bool_decide; simplify_eq.
    destruct (listed_exclusive_closed r) as (C1 & C2 & C3 & C4 & C5 & C6).
    unfold timer_resume.
    pose proof (getPurchases_end_closed listed_exclusive C1 C2 resp
                  (with_inflight (remove r (inflight st)) st)) as HJ1.
    destruct (getPurchases_end resp _) as [[ps|msg] st1]; cbn in HJ1.
    + unfold on_success. apply C4, C5, HJ1. by apply (listed_exclusive_ext st).
    + unfold on_failure. apply C4.
      assert (listed_exclusive st1)
        by (apply HJ1; by apply (listed_exclusive_ext st)).
      repeat case_match; auto.
  - simplify_eq. by apply listed_exclusive_scheduleRefresh.
  - simplify_eq. apply schedulePurchaseRefreshes_closed; [|done].
    apply listed_exclusive_scheduleRefresh.
  - simplify_eq. by apply (listed_exclusive_ext st).
  - simplify_eq. apply (listed_exclusive_ext st); try done;
      unfold _storeAccessKey; by case_match.
Qed.

(** X12. In a run without [clearSchedules] and [clearStoredData], at most
    one task of a subscription is in progress at any time, and every task
    created is in the schedule list. *)
Lemma exclusive_without_reset ls t es st :
  forallb no_reset es = true → run es (fresh ls t) = Some st →
  all_listed st ∧ exclusive st.
Proof.
  assert (H0 : listed_exclusive (fresh ls t)).
  { split; [done|]. intros r1 r2 s1 s2 H. unfold deref in H. cbn in H. done. }
  revert H0. generalize (fresh ls t). induction es as [|e es IH]; intros st0 HJ Hnr H.
  - cbn in H. by simplify_eq.
  - cbn in Hnr, H. apply andb_true_iff in Hnr as [He Hes].
    destruct (step e st0) as [st1|] eqn:Hstep; [|done].
    apply (IH st1); try done. by apply (listed_exclusive_step e st0).
Qed.

(** X13. With every task in the list, a task whose timer fires while
    another task of its subscription is in progress is skipped: the only
    effects are that its timer is gone and the message; no lookup, no flag
    changed, no task added. *)
Lemma fire_skipped r r' s s' st :
  all_listed st → r ∈ timers st → deref st r = Some s →
  scheduledAt s <= now st → completed s = false →
  deref st r' = Some s' → subscriptionId s' = subscriptionId s →
  inProgress s' = true →
  step (Fire r) st = Some (log (ObsSkip r) (with_timers (remove r (timers st)) st)).
Proof.
  intros Hall Hin Hd Hdue Hc Hd' Hsub Hp. cbn. rewrite Hd.
  rewrite !bool_decide_eq_true_2 by done. cbn. f_equal.
  unfold timer_callback.
  replace (deref (with_timers (remove r (timers st)) st) r) with (Some s) by done.
  rewrite Hc.
  assert (Hfind : find_inProgress (subscriptionId s)
                    (with_timers (remove r (timers st)) st) = true).
  { apply existsb_exists. exists r'. split.
    - apply list_elem_of_In. cbn. rewrite Hall. apply elem_of_seq.
      apply lookup_lt_Some in Hd'. lia.
    - replace (deref (with_timers (remove r (timers st)) st) r') with (Some s')
        by done.
      rewrite Hp, Hsub. by rewrite bool_decide_eq_true_2. }
  by rewrite Hfind.
Qed.


(** * Further properties *)

(** ** Credentials: store, look up, reset *)

Lemma assign_lookup_eq (obj : gmap string string) key value :
  key ≠ "__proto__" → assign obj key value !! key = Some value.
Proof.
  intros H. unfold assign. rewrite bool_decide_eq_false_2 by (by intros [? _]).
  apply lookup_insert_eq.
Qed.

Lemma assign_lookup_ne (obj : gmap string string) key value j :
  j ≠ key → assign obj key value !! j = obj !! j.
Proof.
  intros H. unfold assign. case_bool_decide; [done|]. by apply lookup_insert_ne.
Qed.

Lemma assign_proto (obj : gmap string string) value :
  obj !! "__proto__" = None → assign obj "__proto__" value = obj.
Proof. intros H. unfold assign. by rewrite bool_decide_eq_true_2. Qed.

Lemma storedKeys_storeAccessKey ident accessKey st :
  _getStoredAccessKeys (_storeAccessKey ident accessKey st) =
  assign (_getStoredAccessKeys st) ident accessKey.
Proof. unfold _storeAccessKey. by destruct (startsWith ident "sub_"). Qed.

Lemma session_storeAccessKey ident accessKey st :
  getSessionId (_storeAccessKey ident accessKey st) = getSessionId st.
Proof. unfold _storeAccessKey. by destruct (startsWith ident "sub_"). Qed.

Lemma getAccessKey_own_key ident k st :
  ident ≠ "" → k ≠ "" → _getStoredAccessKeys st !! ident = Some k →
  getAccessKey (Some ident) st = Some (Str k).
Proof.
  intros Hi Hk Hl. unfold getAccessKey. cbv zeta.
  rewrite (truthy_Some ident Hi). cbv iota.
  rewrite (truthy_Some ident Hi). cbv iota.
  rewrite (index_own _ (Some ident) k Hl). unfold or_value at 1.
  by rewrite (truthy_value_Str k Hk).
Qed.

(** X1. A stored access key is found again: after
    [_storeAccessKey(id, key)], for a non-empty key and a non-empty id other
    than "__proto__", [getAccessKey(id)] is that key, whatever the session;
    the entries of all other ids, the session id and the cached catalog are
    as before. For the id "__proto__" nothing is stored: the key map is as
    before (when it has no such entry, as is the case as long as this class
    alone writes it). *)
Theorem storeAccessKey_then_getAccessKey st ident accessKey :
  ident ≠ "" → ident ≠ "__proto__" → accessKey ≠ "" →
  let st' := _storeAccessKey ident accessKey st in
  getAccessKey (Some ident) st' = Some (Str accessKey) ∧
  (∀ j, j ≠ ident → _getStoredAccessKeys st' !! j = _getStoredAccessKeys st !! j) ∧
  getSessionId st' = getSessionId st ∧
  _getCachedProducts st' = _getCachedProducts st ∧
  (_getStoredAccessKeys st !! "__proto__" = None →
   _getStoredAccessKeys (_storeAccessKey "__proto__" accessKey st) =
   _getStoredAccessKeys st).
Proof.
  intros Hi Hp Hk. cbv zeta. split_and!.
  - apply getAccessKey_own_key; try done.
    rewrite storedKeys_storeAccessKey. by apply assign_lookup_eq.
  - intros j Hj. rewrite storedKeys_storeAccessKey. by apply assign_lookup_ne.
  - apply session_storeAccessKey.
  - unfold _storeAccessKey. by destruct (startsWith ident "sub_").
  - intros Hnone. rewrite storedKeys_storeAccessKey. by apply assign_proto.
Qed.

Lemma storeAccessKey_then_getAccessKey_witness :
  let st := _storeAccessKey "cs_1" "k1" (_setSessionId "cs_1" (fresh empty_storage 0)) in
  getAccessKey (Some "sub_1") (_storeAccessKey "sub_1" "k2" st) = Some (Str "k2") ∧
  _getStoredAccessKeys (_storeAccessKey "sub_1" "k2" st) !! "cs_1" = Some "k1".
Proof.
  cbv zeta.
  match goal with
  | |- getAccessKey _ (_storeAccessKey _ _ ?st) = _ ∧ _ =>
      destruct (storeAccessKey_then_getAccessKey st "sub_1" "k2")
        as (H1 & H2 & _)
  end.
  - discriminate.
  - discriminate.
  - discriminate.
  - split; [exact H1|]. rewrite H2 by discriminate. vm_compute. reflexivity.
Defined.

(** X20. The session key as a fallback. For a non-empty id that has no entry
    in the stored key map and is not the name of a member every object
    inherits: [getAccessKey] returns the non-empty key stored for the
    current session id when there is one, whatever else the id is; and when
    it returns null, the current session id, if any, has no key (no entry,
    or an empty one). *)
Theorem getAccessKey_falls_back_to_session st ident :
  ident ≠ "" → ident ∉ Object_prototype →
  _getStoredAccessKeys st !! ident = None →
  (∀ sid k, getSessionId st = Some sid → _getStoredAccessKeys st !! sid = Some k →
            k ≠ "" → getAccessKey (Some ident) st = Some (Str k)) ∧
  (getAccessKey (Some ident) st = None →
   ∀ sid, getSessionId st = Some sid →
          _getStoredAccessKeys st !! sid = None ∨
          _getStoredAccessKeys st !! sid = Some "").
Proof.
  intros Hid Hnp Hnone.
  assert (E : getAccessKey (Some ident) st =
              or_value (index (_getStoredAccessKeys st) (getSessionId st)) None).
  { unfold getAccessKey. cbv zeta.
    rewrite (truthy_Some ident Hid). cbv iota.
    rewrite (truthy_Some ident Hid). cbv iota.
    by rewrite (index_absent _ (Some ident) Hnone Hnp). }
  rewrite E. split.
  - intros sid k -> Hk Hne. rewrite (index_own _ (Some sid) k Hk).
    unfold or_value. by rewrite (truthy_value_Str k Hne).
  - intros H sid Hs. rewrite Hs in H. apply or_value_None in H.
    by apply (index_falsy _ (Some sid)).
Qed.

Lemma getAccessKey_falls_back_to_session_witness :
  let st := _storeAccessKey "cs_1" "k1" (_setSessionId "cs_1" (fresh empty_storage 0)) in
  getAccessKey (Some "sub_unrelated") st = Some (Str "k1").
Proof.
  refine (proj1 (getAccessKey_falls_back_to_session _ "sub_unrelated" _ _ _)
            "cs_1" "k1" _ _ _).
  - discriminate.
  - apply (bool_decide_unpack _). vm_compute. reflexivity.
  - vm_compute. reflexivity.
  - reflexivity.
  - vm_compute. reflexivity.
  - discriminate.
Defined.

(** X2. After a checkout response with a session id other than "__proto__"
    and an access key, and with no subscription id stored, [getPurchases()]
    called without arguments asks for that session id with that access
    key. *)
Theorem checkout_then_getPurchases st url sid k :
  url ≠ "" → sid ≠ "" → sid ≠ "__proto__" → k ≠ "" →
  truthy (getSubscriptionId st) = false →
  let r := initCheckoutSession_end (CheckoutBody true (Some url) (Some sid) (Some k)) st in
  r.1 = Return url ∧
  getSessionId r.2 = Some sid ∧
  getPurchases_begin None None r.2 =
    (Awaiting, log (ObsFetch (GetPurchases sid k)) r.2).
Proof.
  intros Hu Hs Hp Hk Hsub. cbv zeta. unfold initCheckoutSession_end.
  rewrite (truthy_Some url Hu), (truthy_Some sid Hs), (truthy_Some k Hk).
  cbn [fst snd].
  set (st' := _storeAccessKey sid k (_setSessionId sid st)).
  assert (Hses : getSessionId st' = Some sid)
    by (unfold st'; by rewrite session_storeAccessKey).
  assert (Hkey : getAccessKey (Some sid) st' = Some (Str k)).
  { apply getAccessKey_own_key; try done. unfold st'.
    rewrite storedKeys_storeAccessKey. by apply assign_lookup_eq. }
  assert (Hid : js_or (getSubscriptionId st') (getSessionId st') = Some sid).
  { rewrite Hses. unfold st', _storeAccessKey.
    destruct (startsWith sid "sub_"); cbn.
    - unfold js_or. by rewrite (truthy_Some sid Hs).
    - unfold js_or. fold (getSubscriptionId st). by rewrite Hsub. }
  split_and!; try done.
  unfold getPurchases_begin. cbn [truthy]. cbv iota.
  rewrite Hid, Hkey. by rewrite (truthy_Some sid Hs), (truthy_value_Str k Hk).
Qed.

Lemma checkout_then_getPurchases_witness :
  let r := initCheckoutSession_end
             (CheckoutBody true (Some "https://pay") (Some "cs_1") (Some "k1"))
             (fresh empty_storage 0) in
  getPurchases_begin None None r.2 =
    (Awaiting, log (ObsFetch (GetPurchases "cs_1" "k1")) r.2).
Proof.
  cbv zeta.
  apply (checkout_then_getPurchases (fresh empty_storage 0) "https://pay" "cs_1" "k1");
    try discriminate; reflexivity.
Defined.

Lemma storedKeys_foldl_other (entries : list (string * string)) st j :
  j ∉ entries.*1 →
  _getStoredAccessKeys
    (foldl (λ s '(subId, newKey), _storeAccessKey subId newKey s) st entries) !! j =
  _getStoredAccessKeys st !! j.
Proof.
  revert st. induction entries as [|[i k] entries IH]; intros st Hj; [done|].
  cbn in Hj. apply not_elem_of_cons in Hj as [Hne Hj].
  cbn. rewrite IH by done. rewrite storedKeys_storeAccessKey.
  by apply assign_lookup_ne.
Qed.

Lemma storedKeys_foldl_entry (entries : list (string * string)) st i k :
  NoDup entries.*1 → (i, k) ∈ entries → i ≠ "__proto__" →
  _getStoredAccessKeys
    (foldl (λ s '(subId, newKey), _storeAccessKey subId newKey s) st entries) !! i =
  Some k.
Proof.
  revert st. induction entries as [|[i0 k0] entries IH]; intros st Hnd Hin Hp.
  - by apply elem_of_nil in Hin.
  - cbn in Hnd. apply NoDup_cons in Hnd as [Hfresh Hnd].
    apply elem_of_cons in Hin as [Heq|Hin]; cbn.
    + simplify_eq. rewrite storedKeys_foldl_other by done.
      rewrite storedKeys_storeAccessKey. by apply assign_lookup_eq.
    + by apply IH.
Qed.

(** X3. A successful purchase lookup stores every rotated access key: for a
    response whose [new_access_keys] object has the entries [entries] (an
    object has each key once), every entry with a non-empty key and a
    non-empty id other than "__proto__" is what [getAccessKey] finds for
    that id afterwards. *)
Theorem getPurchases_stores_new_access_keys st purchases entries i k :
  NoDup entries.*1 → (i, k) ∈ entries → i ≠ "" → i ≠ "__proto__" → k ≠ "" →
  let r := getPurchases_end (PurchasesBody true purchases (Some entries)) st in
  r.1 = Return purchases ∧ getAccessKey (Some i) r.2 = Some (Str k).
Proof.
  intros Hnd Hin Hi Hp Hk. cbv zeta. cbn. split; [done|].
  apply getAccessKey_own_key; try done. by apply storedKeys_foldl_entry.
Qed.

Lemma getPurchases_stores_new_access_keys_witness :
  getAccessKey (Some "sub_1")
    (getPurchases_end
       (PurchasesBody true [] (Some [("sub_1", "k2"); ("sub_2", "k3")]))
       (fresh empty_storage 0)).2 = Some (Str "k2").
Proof.
  refine (proj2 (getPurchases_stores_new_access_keys (fresh empty_storage 0) []
                   [("sub_1", "k2"); ("sub_2", "k3")] "sub_1" "k2" _ _ _ _ _)).
  - cbn. apply NoDup_cons. split; [|apply NoDup_singleton].
    intros H. apply list_elem_of_singleton in H. discriminate.
  - apply list_elem_of_here.
  - discriminate.
  - discriminate.
  - discriminate.
Defined.

(** X4. [clearStoredData] forgets everything stored: afterwards the key map
    is empty and [getAccessKey] is null for every id, but for the names of
    the members an object inherits ("constructor", "__proto__", ...), for
    which it is that member; no session or subscription id is stored,
    [getPurchases()] without an id returns the empty list, [getProducts] has
    to fetch the catalog again, and the schedule list is empty. *)
Theorem clearStoredData_forgets st :
  let st' := clearStoredData st in
  _getStoredAccessKeys st' = ∅ ∧
  (∀ ident, getAccessKey ident st' =
            match ident with
            | Some name => if bool_decide (name ∈ Object_prototype)
                           then Some (Inherited name) else None
            | None => None
            end) ∧
  getSessionId st' = None ∧ getSubscriptionId st' = None ∧
  (∀ accessKey, getPurchases_begin None accessKey st' = (Resolved [], st')) ∧
  getProducts_begin st' = (Awaiting, log (ObsFetch GetPrices) st') ∧
  schedules st' = [].
Proof.
  cbv zeta. split_and!; try done.
  intros ident. unfold getAccessKey. cbv zeta.
  replace (getSubscriptionId (clearStoredData st)) with (@None string) by done.
  replace (getSessionId (clearStoredData st)) with (@None string) by done.
  replace (_getStoredAccessKeys (clearStoredData st))
    with (∅ : gmap string string) by done.
  destruct ident as [name|]; [|done].
  destruct (truthy (Some name)) eqn:Ht.
  - cbn [js_or]. rewrite Ht. unfold index. cbn [propertyKey].
    rewrite !lookup_empty. rewrite (bool_decide_eq_false_2 _ not_Object_prototype_null).
    unfold or_value. by case_bool_decide.
  - cbn. cbn in Ht. apply negb_false_iff, bool_decide_eq_true in Ht. subst name.
    by rewrite bool_decide_eq_false_2 by (apply (bool_decide_unpack _); by vm_compute).
Qed.

(** ** One resolution of id and access key *)

(** X5. [getPurchases], [redirectToCustomerPortal] and [changePlan] resolve
    the id and the access key alike: one sends its request for [(i, k)]
    exactly when the others do. They differ without an id, where
    [getPurchases] returns the empty list and the two others throw "No
    session ID available"; with an id and no access key all three throw. *)
Theorem same_resolution st ident accessKey returnUrl offerId :
  (∀ i k,
     (getPurchases_begin ident accessKey st =
        (Awaiting, log (ObsFetch (GetPurchases i k)) st) ↔
      redirectToCustomerPortal_begin returnUrl ident accessKey st =
        Return (PostPortal returnUrl i k)) ∧
     (redirectToCustomerPortal_begin returnUrl ident accessKey st =
        Return (PostPortal returnUrl i k) ↔
      changePlan_begin offerId ident accessKey st =
        Return (PostChangePlan i offerId k))) ∧
  (getPurchases_begin ident accessKey st = (Resolved [], st) ↔
   redirectToCustomerPortal_begin returnUrl ident accessKey st =
     Throw "No session ID available") ∧
  (getPurchases_begin ident accessKey st = (Resolved [], st) ↔
   changePlan_begin offerId ident accessKey st = Throw "No session ID available") ∧
  ((∃ msg, getPurchases_begin ident accessKey st = (Raised msg, st)) ↔
   redirectToCustomerPortal_begin returnUrl ident accessKey st =
     Throw "No access key available") ∧
  ((∃ msg, getPurchases_begin ident accessKey st = (Raised msg, st)) ↔
   changePlan_begin offerId ident accessKey st = Throw "No access key available").
Proof.
  unfold redirectToCustomerPortal_begin, changePlan_begin, resolve_or_throw,
    getPurchases_begin. cbv zeta.
  set (ident1 := if truthy ident then ident
                 else js_or (getSubscriptionId st) (getSessionId st)).
  clearbody ident1.
  destruct (truthy ident1) eqn:Hi; destruct ident1 as [i0|]; cbn in Hi; try done.
  1: set (accessKey1 := if truthy accessKey then Str <$> accessKey
                        else getAccessKey (Some i0) st);
     clearbody accessKey1;
     destruct (truthy_value accessKey1) eqn:Hk; destruct accessKey1 as [k0|];
     cbn in Hk; try done.
  all: split_and!;
    [ intros i k; split; split; intros H; by simplify_eq
    | split; intros H; by simplify_eq
    | split; intros H; by simplify_eq
    | split; [intros [msg H]; by simplify_eq | intros H; simplify_eq; eauto]
    | split; [intros [msg H]; by simplify_eq | intros H; simplify_eq; eauto] ].
Qed.

(** ** Scheduling and storing do not interfere *)

Lemma some_id_with_storage i ls st : some_id i (with_storage ls st) = some_id i st.
Proof. done. Qed.

Lemma scheduleRefresh_storeAccessKey ident accessKey sub date why st :
  _storeAccessKey ident accessKey (scheduleRefresh sub date why st) =
  scheduleRefresh sub date why (_storeAccessKey ident accessKey st).
Proof.
  rewrite !scheduleRefresh_eq.
  replace (some_id (mkId sub date) (_storeAccessKey ident accessKey st))
    with (some_id (mkId sub date) st)
    by (unfold _storeAccessKey; by destruct (startsWith ident "sub_")).
  destruct (some_id (mkId sub date) st); [done|].
  unfold _storeAccessKey. by destruct (startsWith ident "sub_").
Qed.

Lemma schedulePurchaseRefreshes_storeAccessKey ident accessKey purchase st :
  _storeAccessKey ident accessKey (schedulePurchaseRefreshes purchase st) =
  schedulePurchaseRefreshes purchase (_storeAccessKey ident accessKey st).
Proof.
  destruct (expirationDate purchase) as [T|] eqn:HT;
    [|by rewrite ?schedulePurchaseRefreshes_none].
  rewrite !(schedulePurchaseRefreshes_eq purchase T _ HT). cbv zeta.
  replace (now (_storeAccessKey ident accessKey st)) with (now st)
    by (unfold _storeAccessKey; by destruct (startsWith ident "sub_")).
  destruct (in_future T (T - 10000) (now st));
    destruct (in_future T (T + 10000) (now st));
    by rewrite ?scheduleRefresh_storeAccessKey.
Qed.

Lemma foldl_schedule_storeAccessKey ident accessKey purchases st :
  _storeAccessKey ident accessKey
    (foldl (λ s purchase, schedulePurchaseRefreshes purchase s) st purchases) =
  foldl (λ s purchase, schedulePurchaseRefreshes purchase s)
    (_storeAccessKey ident accessKey st) purchases.
Proof.
  revert st. induction purchases as [|p ps IH]; intros st; [done|].
  cbn. by rewrite IH, schedulePurchaseRefreshes_storeAccessKey.
Qed.

(** X6. Storing access keys and scheduling refreshes are independent: the
    state after a successful purchase lookup, which schedules the refreshes
    of the purchases and then stores the new access keys, is the state
    reached by storing the keys first and scheduling afterwards, the order
    of [changePlan]. *)
Theorem getPurchases_end_order_irrelevant st purchases entries :
  (getPurchases_end (PurchasesBody true purchases (Some entries)) st).2 =
  foldl (λ s purchase, schedulePurchaseRefreshes purchase s)
    (foldl (λ s '(subId, newKey), _storeAccessKey subId newKey s) st entries)
    purchases.
Proof.
  cbn. revert st. induction entries as [|[i k] entries IH]; intros st; [done|].
  cbn. rewrite <- IH. by rewrite foldl_schedule_storeAccessKey.
Qed.

(** ** Repeated lookups do not pile up tasks *)

Lemma reachable_step e st st' : reachable st → step e st = Some st' → reachable st'.
Proof.
  intros (ls & t & es & Hrun) Hstep. exists ls, t, (es ++ [e]).
  revert Hrun. generalize (fresh ls t). induction es as [|e0 es IH]; intros s0 Hrun.
  - cbn in Hrun. simplify_eq. cbn. by rewrite Hstep.
  - cbn in Hrun |- *. destruct (step e0 s0); [|done]. by apply IH.
Qed.

(** X7. [schedulePurchaseRefreshes] is idempotent: in every state the page
    reaches, scheduling the refreshes of the same purchase a second time (at
    the same clock value) changes nothing, so repeated lookups of one
    purchase do not add tasks. *)
Theorem schedulePurchaseRefreshes_idempotent st purchase :
  reachable st →
  schedulePurchaseRefreshes purchase (schedulePurchaseRefreshes purchase st) =
  schedulePurchaseRefreshes purchase st.
Proof.
  intros Hr. apply reachable_wf in Hr.
  destruct (expirationDate purchase) as [T|] eqn:HT;
    [|by rewrite ?schedulePurchaseRefreshes_none].
  set (pid := purchaseId purchase).
  set (st' := schedulePurchaseRefreshes purchase st).
  assert (Hnow : now st' = now st).
  { unfold st'. apply (schedulePurchaseRefreshes_closed (λ s, now s = now st)); [|done].
    intros sub date why s Hs.
    by destruct (scheduleRefresh_frame sub date why s) as (_ & -> & _). }
  assert (Hwf : wf st').
  { unfold st'. apply schedulePurchaseRefreshes_closed; [|done].
    intros. by apply wf_scheduleRefresh. }
  assert (Hpre : in_future T (T - 10000) (now st) = true →
                 some_id (mkId pid (T - 10000)) st' = true).
  { intros HA. unfold st'. rewrite (schedulePurchaseRefreshes_eq purchase T st HT).
    cbv zeta. rewrite HA. fold pid.
    destruct (in_future T (T + 10000) (now st)).
    - apply some_id_mono; [by apply wf_scheduleRefresh|].
      by apply some_id_scheduleRefresh.
    - by apply some_id_scheduleRefresh. }
  assert (Hpost : in_future T (T + 10000) (now st) = true →
                  some_id (mkId pid (T + 10000)) st' = true).
  { intros HB. unfold st'. rewrite (schedulePurchaseRefreshes_eq purchase T st HT).
    cbv zeta. rewrite HB. fold pid. apply some_id_scheduleRefresh.
    destruct (in_future T (T - 10000) (now st)); [by apply wf_scheduleRefresh|done]. }
  rewrite (schedulePurchaseRefreshes_eq purchase T st' HT). cbv zeta.
  rewrite Hnow. fold pid.
  destruct (in_future T (T - 10000) (now st)) eqn:HA;
    destruct (in_future T (T + 10000) (now st)) eqn:HB;
    rewrite ?(scheduleRefresh_known _ _ _ st' (Hpre eq_refl)),
            ?(scheduleRefresh_known _ _ _ st' (Hpost eq_refl)); try done.
Qed.

Lemma schedulePurchaseRefreshes_idempotent_witness :
  let p := {| purchaseId := "sub_1"; transactionId := "ch_1"; productId := "prod_1";
              expirationDate := Some 50000; renewalIntent := Renew;
              isTrialPeriod := false |} in
  let st := fresh empty_storage 0 in
  schedulePurchaseRefreshes p (schedulePurchaseRefreshes p st) =
  schedulePurchaseRefreshes p st.
Proof.
  apply (schedulePurchaseRefreshes_idempotent (fresh empty_storage 0)).
  exists empty_storage, 0, []. reflexivity.
Defined.

(** ** Plan change *)

Lemma foldl_store_frame (entries : list (string * string)) st :
  let st' := foldl (λ s '(subId, newKey), _storeAccessKey subId newKey s) st entries in
  heap st' = heap st ∧ schedules st' = schedules st ∧ timers st' = timers st ∧
  now st' = now st.
Proof.
  cbv zeta. revert st. induction entries as [|[i k] entries IH]; intros st; [done|].
  cbn. destruct (IH (_storeAccessKey i k st)) as (-> & -> & -> & ->).
  unfold _storeAccessKey. by destruct (startsWith i "sub_").
Qed.

Lemma foldl_store_reachable (entries : list (string * string)) st :
  reachable st →
  reachable (foldl (λ s '(subId, newKey), _storeAccessKey subId newKey s) st entries).
Proof.
  revert st. induction entries as [|[i k] entries IH]; intros st Hr; [done|].
  cbn. apply IH. by apply (reachable_step (CallStoreAccessKey i k) st).
Qed.

Lemma heap_length_scheduleRefresh sub date why st :
  (length (heap st) ≤ length (heap (scheduleRefresh sub date why st)) ≤
   S (length (heap st)))%nat.
Proof.
  rewrite scheduleRefresh_eq. destruct (some_id _ st); [lia|].
  cbn. rewrite length_app. cbn. lia.
Qed.

Lemma heap_length_schedulePurchaseRefreshes purchase st :
  (length (heap (schedulePurchaseRefreshes purchase st)) ≤ length (heap st) + 2)%nat.
Proof.
  destruct (expirationDate purchase) as [T|] eqn:HT;
    [|rewrite schedulePurchaseRefreshes_none by done; lia].
  rewrite (schedulePurchaseRefreshes_eq purchase T st HT). cbv zeta.
  set (sa := if in_future T (T - 10000) (now st)
             then scheduleRefresh (purchaseId purchase) (T - 10000) "pre-expiration" st
             else st).
  assert (Ha : (length (heap sa) ≤ S (length (heap st)))%nat).
  { unfold sa. case_match; [apply heap_length_scheduleRefresh|lia]. }
  set (sb := if in_future T (T + 10000) (now st)
             then scheduleRefresh (purchaseId purchase) (T + 10000)
                    "post-expiration" sa
             else sa).
  assert (Hb : (length (heap sb) ≤ S (length (heap sa)))%nat).
  { unfold sb. case_match; [apply heap_length_scheduleRefresh|lia]. }
  lia.
Qed.

(** X8. A successful [changePlan], in a state the page reaches: the updated
    purchase is returned; at most three tasks are added; a task with the id
    derived from the purchase id and now + 10 s is in the schedule list, and
    it is a new task with reason "post-change-verification" and an armed
    timer when no task had that id and the purchase does not expire exactly
    now or 20 s from now (its own refreshes would then take that
    instant). *)
Theorem changePlan_end_schedules st purchase new_access_keys :
  reachable st →
  let r := changePlan_end (ChangePlanBody true (Some purchase) new_access_keys) st in
  let pid := purchaseId purchase in
  r.1 = Return purchase ∧ reachable r.2 ∧
  some_id (mkId pid (now st + 10000)) r.2 = true ∧
  (length (heap r.2) ≤ length (heap st) + 3)%nat ∧
  (some_id (mkId pid (now st + 10000)) st = false →
   (∀ T, expirationDate purchase = Some T → T ≠ now st + 20000 ∧ T ≠ now st) →
   ∃ n, (n ∉ schedules st) ∧
        registered pid (now st + 10000) "post-change-verification" n r.2).
Proof.
  intros Hr. cbv zeta. cbn [changePlan_end fst snd].
  set (st1 := match new_access_keys with
              | Some entries =>
                  foldl (λ s '(subId, newKey), _storeAccessKey subId newKey s) st entries
              | None => st
              end).
  assert (F1 : heap st1 = heap st ∧ schedules st1 = schedules st ∧
               timers st1 = timers st ∧ now st1 = now st).
  { unfold st1. destruct new_access_keys; [apply foldl_store_frame|done]. }
  destruct F1 as (Hh1 & Hs1 & Ht1 & Hn1).
  assert (Hr1 : reachable st1).
  { unfold st1. destruct new_access_keys; [by apply foldl_store_reachable|done]. }
  set (st2 := schedulePurchaseRefreshes purchase st1).
  assert (Hr2 : reachable st2)
    by (by apply (reachable_step (CallSchedulePurchaseRefreshes purchase) st1)).
  assert (Hn2 : now st2 = now st).
  { rewrite <- Hn1. unfold st2.
    apply (schedulePurchaseRefreshes_closed (λ s, now s = now st1)); [|done].
    intros sub date why s Hs.
    by destruct (scheduleRefresh_frame sub date why s) as (_ & -> & _). }
  rewrite Hn2.
  set (pid := purchaseId purchase).
  set (st3 := scheduleRefresh pid (now st + 10000) "post-change-verification" st2).
  pose proof (reachable_wf _ Hr1) as Hwf1.
  pose proof (reachable_wf _ Hr2) as Hwf2.
  split_and!.
  - done.
  - by apply (reachable_step
                (CallScheduleRefresh pid (now st + 10000) "post-change-verification")
                st2).
  - by apply some_id_scheduleRefresh.
  - pose proof (heap_length_scheduleRefresh pid (now st + 10000)
                  "post-change-verification" st2) as H3.
    pose proof (heap_length_schedulePurchaseRefreshes purchase st1) as H2.
    fold st2 st3 in H2, H3. rewrite Hh1 in H2. lia.
  - intros Hfree Hexp.
    assert (Hfree1 : some_id (mkId pid (now st + 10000)) st1 = false).
    { rewrite <- Hfree. apply some_id_same_ids. unfold ids, deref.
      by rewrite Hh1, Hs1. }
    assert (Hfree2 : some_id (mkId pid (now st + 10000)) st2 = false).
    { unfold st2. destruct (expirationDate purchase) as [T|] eqn:HT;
        [|by rewrite schedulePurchaseRefreshes_none].
      destruct (Hexp T eq_refl) as [Hne1 Hne2].
      rewrite (schedulePurchaseRefreshes_eq purchase T st1 HT). cbv zeta.
      fold pid.
      set (sa := if in_future T (T - 10000) (now st1)
                 then scheduleRefresh pid (T - 10000) "pre-expiration" st1
                 else st1).
      assert (Hwa : wf sa).
      { unfold sa. case_match; [by apply wf_scheduleRefresh|done]. }
      assert (Ha : some_id (mkId pid (now st + 10000)) sa = false).
      { unfold sa. case_match; [|done]. apply some_id_other; try done.
        intros Heq. apply mkId_inj_date in Heq. lia. }
      destruct (in_future T (T + 10000) (now st1)); [|done].
      apply some_id_other; try done.
      intros Heq. apply mkId_inj_date in Heq. lia. }
    exists (length (heap st2)).
    destruct (scheduleRefresh_fresh_task pid (now st + 10000)
                "post-change-verification" st2 Hwf2 Hfree2)
      as (G1 & _ & _ & G2 & G3 & _ & G4).
    split.
    + intros Hin. apply G1. unfold st2.
      apply (schedulePurchaseRefreshes_closed
               (λ s, length (heap st2) ∈ schedules s)); [|by rewrite Hs1].
      intros sub date why s Hs. by apply scheduleRefresh_mono.
    + split_and!; try done. apply G3. lia.
Qed.

Lemma changePlan_end_schedules_witness :
  let p := {| purchaseId := "sub_1"; transactionId := "ch_1"; productId := "prod_1";
              expirationDate := Some 90000; renewalIntent := Renew;
              isTrialPeriod := false |} in
  let r := changePlan_end (ChangePlanBody true (Some p) None) (fresh empty_storage 0) in
  some_id (mkId "sub_1" 10000) r.2 = true ∧ (length (heap r.2) ≤ 3)%nat.
Proof.
  cbv zeta.
  match goal with
  | |- some_id _ (changePlan_end (ChangePlanBody true (Some ?p) None) ?st).2 = _ ∧ _ =>
      destruct (changePlan_end_schedules st p None) as (_ & _ & H1 & H2 & _)
  end.
  - exists empty_storage, 0, []. reflexivity.
  - split; [exact H1|exact H2].
Defined.

(** ** Each task looks up at most once *)

Lemma lookups_log r o st :
  lookups r (log o st) =
  (lookups r st + if bool_decide (o = ObsLookup r) then 1 else 0)%nat.
Proof.
  unfold lookups. cbn. rewrite List.filter_app, length_app. cbn.
  by case_bool_decide.
Qed.

Lemma at_most_once_mono st st' :
  (∀ r, lookups r st' = lookups r st) →
  (length (heap st) ≤ length (heap st'))%nat →
  (∀ r, r ∈ timers st' → r ∈ timers st ∨ (length (heap st) ≤ r)%nat) →
  at_most_once st → at_most_once st'.
Proof.
  intros Hl Hh Ht H r. destruct (H r) as (H1 & H2 & H3). rewrite Hl.
  split_and!; [done| |intros; apply H3; lia].
  intros Hin. destruct (Ht r Hin); auto.
Qed.

Lemma at_most_once_scheduleRefresh sub date why st :
  at_most_once st → at_most_once (scheduleRefresh sub date why st).
Proof.
  apply at_most_once_mono.
  - intros r. unfold lookups.
    by destruct (scheduleRefresh_frame sub date why st) as (_ & _ & _ & ->).
  - apply heap_length_scheduleRefresh.
  - intros r. rewrite scheduleRefresh_eq. destruct (some_id _ st); [by left|].
    cbn. rewrite elem_of_app. intros [?|Hin]; [by left|]. right.
    case_bool_decide; [by apply elem_of_nil in Hin|].
    apply list_elem_of_singleton in Hin. lia.
Qed.

Lemma at_most_once_same st st' :
  trace st' = trace st → length (heap st') = length (heap st) →
  timers st' = timers st → at_most_once st → at_most_once st'.
Proof.
  intros Htr Hh Ht. apply at_most_once_mono.
  - intros r. unfold lookups. by rewrite Htr.
  - lia.
  - intros r. rewrite Ht. by left.
Qed.

Lemma at_most_once_log o st :
  (∀ r, o ≠ ObsLookup r) → at_most_once st → at_most_once (log o st).
Proof.
  intros Ho. apply at_most_once_mono; [|done|by left].
  intros r. rewrite lookups_log. rewrite bool_decide_eq_false_2 by apply Ho. lia.
Qed.

Lemma at_most_once_lookup r st :
  r ∉ timers st → lookups r st = 0%nat → (r < length (heap st))%nat →
  at_most_once st → at_most_once (log (ObsLookup r) st).
Proof.
  intros Ht H0 Hlt H r'. destruct (H r') as (H1 & H2 & H3).
  rewrite lookups_log. destruct (decide (r' = r)) as [->|Hne].
  - rewrite bool_decide_eq_true_2 by done. rewrite H0.
    split_and!; [lia|done|cbn; lia].
  - rewrite bool_decide_eq_false_2 by congruence.
    split_and!; [lia|intros; rewrite H2; [lia|done]|intros; rewrite H3; [lia|done]].
Qed.

Lemma at_most_once_closed r :
  let P := at_most_once in
  (∀ sub date why st, P st → P (scheduleRefresh sub date why st)) ∧
  (∀ ident accessKey st, P st → P (_storeAccessKey ident accessKey st)) ∧
  (∀ q st, P st → P (log (ObsFetch q) st)) ∧
  (∀ st, P st → P (log (ObsError r) st)) ∧
  (∀ b st, P st → P (set_inProgress r b st)) ∧
  (∀ st, P st → P (set_completed r true st)) ∧
  (∀ st, P st → P (with_inflight (inflight st ++ [r]) st)).
Proof.
  cbv zeta. split_and!.
  - apply at_most_once_scheduleRefresh.
  - intros. apply (at_most_once_same st); try done;
      unfold _storeAccessKey; by case_match.
  - intros. by apply at_most_once_log.
  - intros. by apply at_most_once_log.
  - intros. apply (at_most_once_same st); try done. cbn. by rewrite length_alter.
  - intros. apply (at_most_once_same st); try done. cbn. by rewrite length_alter.
  - intros. by apply (at_most_once_same st).
Qed.

Lemma at_most_once_on_failure r st : at_most_once st → at_most_once (on_failure r st).
Proof.
  intros H. destruct (at_most_once_closed r) as (C1 & _ & _ & C4 & C5 & _).
  unfold on_failure. apply C5. repeat case_match; auto.
Qed.

Lemma at_most_once_on_success r st : at_most_once st → at_most_once (on_success r st).
Proof.
  intros H. destruct (at_most_once_closed r) as (_ & _ & _ & _ & C5 & C6 & _).
  unfold on_success. auto.
Qed.

Lemma at_most_once_step e st st' :
  wf st → at_most_once st → step e st = Some st' → at_most_once st'.
Proof.
  intros Hwf HP. destruct e; cbn; intros H.
  - case_bool_decide; simplify_eq. by apply (at_most_once_same st).
  - destruct (deref st r) as [s|] eqn:Hd; [|done].
    case_match; simplify_eq.
    apply andb_true_iff in H0 as [Hin _]. apply bool_decide_eq_true in Hin.
    destruct (at_most_once_closed r) as (C1 & C2 & C3 & C4 & C5 & C6 & C7).
    set (st0 := with_timers (remove r (timers st)) st).
    assert (HP0 : at_most_once st0).
    { apply (at_most_once_mono st); try done. intros x Hx. left.
      by apply elem_of_remove in Hx as [? _]. }
    assert (Hz : lookups r st0 = 0%nat).
    { destruct (HP r) as (_ & Hz & _). exact (Hz Hin). }
    assert (Hnt : r ∉ timers st0).
    { cbn. intros Hx. apply elem_of_remove in Hx as [_ ?]. done. }
    unfold timer_callback. replace (deref st0 r) with (Some s) by done.
    destruct (completed s); [done|].
    destruct (find_inProgress _ st0); [by apply at_most_once_log|].
    set (st2 := log (ObsLookup r) (set_inProgress r true st0)).
    assert (HP2 : at_most_once st2).
    { apply at_most_once_lookup; try done.
      - cbn. rewrite length_alter. by apply lookup_lt_Some in Hd.
      - by apply C5. }
    pose proof (getPurchases_begin_closed at_most_once C3
                  (Some (subscriptionId s)) None st2 HP2) as HP3.
    destruct (getPurchases_begin _ _ st2) as [[ps|msg|] st3]; cbn in HP3.
    + by apply at_most_once_on_success.
    + by apply at_most_once_on_failure.
    + by apply C7.
  - case_bool_decide; simplify_eq.
    destruct (at_most_once_closed r) as (C1 & C2 & _).
    unfold timer_resume.
    pose proof (getPurchases_end_closed at_most_once C1 C2 resp
                  (with_inflight (remove r (inflight st)) st)) as HP1.
    destruct (getPurchases_end resp _) as [[ps|msg] st1]; cbn in HP1.
    + apply at_most_once_on_success, HP1. by apply (at_most_once_same st).
    + apply at_most_once_on_failure, HP1. by apply (at_most_once_same st).
  - simplify_eq. by apply at_most_once_scheduleRefresh.
  - simplify_eq. apply schedulePurchaseRefreshes_closed; [|done].
    apply at_most_once_scheduleRefresh.
  - simplify_eq. by apply (at_most_once_same st).
  - simplify_eq. by apply (at_most_once_same st).
  - simplify_eq. by apply (at_most_once_same st).
  - simplify_eq. apply (at_most_once_same st); try done;
      unfold _storeAccessKey; by case_match.
Qed.

(** X9. A task looks up at most once: in every state the page reaches, the
    callback of each task has called [getPurchases] at most one time, and
    not at all while its timer is still armed. *)
Theorem task_looks_up_at_most_once st r :
  reachable st →
  (lookups r st ≤ 1)%nat ∧ (r ∈ timers st → lookups r st = 0%nat).
Proof.
  intros (ls & t & es & Hrun).
  assert (H0 : wf (fresh ls t) ∧ at_most_once (fresh ls t)).
  { split; [apply wf_fresh|]. intros x. unfold lookups. cbn.
    split_and!; [lia|done|done]. }
  revert H0 Hrun. generalize (fresh ls t).
  induction es as [|e es IH]; intros st0 [Hwf HP] Hrun.
  - cbn in Hrun. simplify_eq. by destruct (HP r) as (? & ? & _).
  - cbn in Hrun. destruct (step e st0) as [st1|] eqn:Hstep; [|done].
    apply (IH st1); [|done]. split.
    + by apply (wf_step e st0).
    + by apply (at_most_once_step e st0).
Qed.

Lemma task_looks_up_at_most_once_witness :
  ∃ st,
    run [CallStoreAccessKey "sub_1" "k1";
         CallScheduleRefresh "sub_1" 1000 "pre-expiration";
         Tick 1000; Fire 0%nat; Settle 0%nat PurchasesFailed]
      (fresh empty_storage 0) = Some st ∧
    (lookups 0 st ≤ 1)%nat.
Proof.
  eexists. split; [vm_compute; reflexivity|].
  refine (proj1 (task_looks_up_at_most_once _ 0%nat _)).
  exists empty_storage, 0,
    [CallStoreAccessKey "sub_1" "k1";
     CallScheduleRefresh "sub_1" 1000 "pre-expiration";
     Tick 1000; Fire 0%nat; Settle 0%nat PurchasesFailed].
  vm_compute. reflexivity.
Defined.

(** ** The [inProgress] flag is always released *)

Lemma busy_waits_weaken r0 st : busy_waits None st → busy_waits (Some r0) st.
Proof. intros H r s Hd Hp. destruct (H r s Hd Hp); [by left|done]. Qed.

Lemma busy_waits_same r0 st st' :
  heap st' = heap st → inflight st' = inflight st →
  busy_waits r0 st → busy_waits r0 st'.
Proof. unfold busy_waits, deref. by intros -> ->. Qed.

Lemma busy_waits_scheduleRefresh r0 sub date why st :
  busy_waits r0 st → busy_waits r0 (scheduleRefresh sub date why st).
Proof.
  intros H. rewrite scheduleRefresh_eq. destruct (some_id _ st); [done|].
  intros r s. unfold deref. cbn. intros Hd Hp.
  apply lookup_app_Some in Hd as [Hd|[_ Hd]].
  - by apply (H r s).
  - apply list_lookup_singleton_Some in Hd as [_ <-]. done.
Qed.

Lemma busy_waits_alter (f : ScheduledRefresh → ScheduledRefresh) r0 st :
  busy_waits (Some r0) st → busy_waits (Some r0) (with_heap (alter f r0 (heap st)) st).
Proof.
  intros H r s. unfold deref. cbn. intros Hd Hp.
  destruct (decide (r0 = r)) as [->|Hne]; [by right|].
  rewrite list_lookup_alter_ne in Hd by done. by apply (H r s).
Qed.

Lemma busy_waits_release r0 st :
  busy_waits (Some r0) st → busy_waits None (set_inProgress r0 false st).
Proof.
  intros H r s. unfold deref. cbn. intros Hd Hp. left.
  destruct (decide (r0 = r)) as [->|Hne].
  - rewrite list_lookup_alter_eq in Hd.
    destruct (heap st !! r); simplify_eq/=.
  - rewrite list_lookup_alter_ne in Hd by done.
    destruct (H r s Hd Hp) as [?|?]; [done|congruence].
Qed.

Lemma busy_waits_await r0 st :
  busy_waits (Some r0) st →
  busy_waits None (with_inflight (inflight st ++ [r0]) st).
Proof.
  intros H r s Hd Hp. left. cbn. apply elem_of_app.
  destruct (H r s Hd Hp) as [?|?]; [by left|]. right.
  apply list_elem_of_singleton. congruence.
Qed.

Lemma busy_waits_closed r :
  let P := busy_waits (Some r) in
  (∀ sub date why st, P st → P (scheduleRefresh sub date why st)) ∧
  (∀ ident accessKey st, P st → P (_storeAccessKey ident accessKey st)) ∧
  (∀ o st, P st → P (log o st)) ∧
  (∀ b st, P st → P (set_inProgress r b st)) ∧
  (∀ st, P st → P (set_completed r true st)).
Proof.
  cbv zeta. split_and!.
  - apply busy_waits_scheduleRefresh.
  - intros. apply (busy_waits_same _ st); try done;
      unfold _storeAccessKey; by case_match.
  - intros. by apply (busy_waits_same _ st).
  - intros. by apply busy_waits_alter.
  - intros. by apply busy_waits_alter.
Qed.

Lemma busy_waits_on_failure r st :
  busy_waits (Some r) st → busy_waits None (on_failure r st).
Proof.
  intros H. destruct (busy_waits_closed r) as (C1 & _ & C3 & _).
  unfold on_failure. apply busy_waits_release. repeat case_match; auto.
Qed.

Lemma busy_waits_on_success r st :
  busy_waits (Some r) st → busy_waits None (on_success r st).
Proof.
  intros H. destruct (busy_waits_closed r) as (_ & _ & _ & _ & C5).
  unfold on_success. apply busy_waits_release. auto.
Qed.

Lemma busy_waits_step e st st' :
  busy_waits None st → step e st = Some st' → busy_waits None st'.
Proof.
  intros HP. destruct e; cbn; intros H.
  - case_bool_decide; simplify_eq. by apply (busy_waits_same _ st).
  - destruct (deref st r) as [s|] eqn:Hd; [|done].
    case_match; simplify_eq.
    destruct (busy_waits_closed r) as (C1 & C2 & C3 & C4 & C5).
    set (st0 := with_timers (remove r (timers st)) st).
    assert (HP0 : busy_waits None st0) by (by apply (busy_waits_same _ st)).
    unfold timer_callback. replace (deref st0 r) with (Some s) by done.
    destruct (completed s); [done|].
    destruct (find_inProgress _ st0); [by apply (busy_waits_same _ st0)|].
    set (st2 := log (ObsLookup r) (set_inProgress r true st0)).
    assert (HP2 : busy_waits (Some r) st2).
    { apply C3, C4. by apply busy_waits_weaken. }
    pose proof (getPurchases_begin_closed (busy_waits (Some r))
                  (λ q, C3 (ObsFetch q)) (Some (subscriptionId s)) None st2 HP2)
      as HP3.
    destruct (getPurchases_begin _ _ st2) as [[ps|msg|] st3]; cbn in HP3.
    + by apply busy_waits_on_success.
    + by apply busy_waits_on_failure.
    + by apply busy_waits_await.
  - case_bool_decide; simplify_eq.
    destruct (busy_waits_closed r) as (C1 & C2 & _).
    set (st0 := with_inflight (remove r (inflight st)) st).
    assert (HP0 : busy_waits (Some r) st0).
    { intros x s Hd Hp. destruct (HP x s Hd Hp) as [Hin|?]; [|done].
      destruct (decide (x = r)) as [->|Hne]; [by right|]. left.
      cbn. by apply elem_of_remove. }
    unfold timer_resume.
    pose proof (getPurchases_end_closed (busy_waits (Some r)) C1 C2 resp st0 HP0)
      as HP1.
    destruct (getPurchases_end resp st0) as [[ps|msg] st1]; cbn in HP1.
    + by apply busy_waits_on_success.
    + by apply busy_waits_on_failure.
  - simplify_eq. by apply busy_waits_scheduleRefresh.
  - simplify_eq. apply schedulePurchaseRefreshes_closed; [|done].
    apply busy_waits_scheduleRefresh.
  - simplify_eq. by apply (busy_waits_same _ st).
  - simplify_eq. by apply (busy_waits_same _ st).
  - simplify_eq. by apply (busy_waits_same _ st).
  - simplify_eq. apply (busy_waits_same _ st); try done;
      unfold _storeAccessKey; by case_match.
Qed.

(** X10. In every state the page reaches, a task is in progress exactly
    while it waits for the response to its request: the flag is released
    when the lookup ends, whether it returns or throws, and a task that
    throws before any request never keeps it. *)
Theorem inProgress_iff_waiting st r s :
  reachable st → deref st r = Some s →
  (inProgress s = true ↔ r ∈ inflight st).
Proof.
  intros Hr Hd. split.
  - intros Hp. destruct Hr as (ls & t & es & Hrun).
    assert (H0 : busy_waits None (fresh ls t)).
    { intros x y H. unfold deref in H. cbn in H. done. }
    revert H0 Hrun. generalize (fresh ls t).
    induction es as [|e es IH]; intros st0 HP Hrun.
    + cbn in Hrun. simplify_eq. by destruct (HP r s Hd Hp).
    + cbn in Hrun. destruct (step e st0) as [st1|] eqn:Hstep; [|done].
      apply (IH st1); [|done]. by apply (busy_waits_step e st0).
  - intros Hin. apply reachable_wf in Hr.
    destruct (wf_waiting _ Hr r Hin) as (_ & s' & Hd' & _ & Hp).
    rewrite Hd in Hd'. by simplify_eq.
Qed.

Lemma inProgress_iff_waiting_witness :
  ∃ st,
    run [CallScheduleRefresh "sub_1" 1000 "pre-expiration"; Tick 1000; Fire 0%nat]
      (fresh empty_storage 0) = Some st ∧
    (inProgress (with_inProgress false (new_schedule "sub_1" 1000 "pre-expiration"))
       = true ↔ 0%nat ∈ inflight st).
Proof.
  eexists. split; [vm_compute; reflexivity|].
  apply inProgress_iff_waiting.
  - exists empty_storage, 0,
      [CallScheduleRefresh "sub_1" 1000 "pre-expiration"; Tick 1000; Fire 0%nat].
    vm_compute. reflexivity.
  - reflexivity.
Defined.

(** ** Success of a task *)

(** X11. When the response to the request of a task is a success, the task
    becomes completed and is no longer in progress, and it is never run
    again: it has no timer and never gets one. *)
Theorem successful_task_completed st r s purchases new_access_keys :
  reachable st → deref st r = Some s → r ∈ inflight st →
  ∃ st', step (Settle r (PurchasesBody true purchases new_access_keys)) st = Some st' ∧
    deref st' r = Some (with_inProgress false (with_completed true s)) ∧
    ∀ es st2, run es st' = Some st2 → not_run r st' st2.
Proof.
  intros Hr Hd Hin. apply reachable_wf in Hr.
  destruct (wf_waiting _ Hr r Hin) as (Hnt & _).
  set (st0 := with_inflight (remove r (inflight st)) st).
  assert (Hs0 : is_Some (deref st0 r)) by (by exists s).
  assert (HN0 : not_run r st0 st0).
  { apply not_run_refl; [done|]. cbn. intros Hx.
    apply elem_of_remove in Hx as [_ ?]. done. }
  pose proof (getPurchases_end_closed (not_run r st0)
                (not_run_scheduleRefresh r st0 Hs0)
                (not_run_storeAccessKey r st0)
                (PurchasesBody true purchases new_access_keys) st0 HN0) as HN1.
  eexists. split.
  { cbn [step]. rewrite bool_decide_eq_true_2 by done. reflexivity. }
  fold st0. unfold timer_resume.
  destruct (getPurchases_end _ st0) as [[ps|msg] st1] eqn:He; [|by cbn in He].
  cbn in HN1. destruct HN1 as (Hd1 & Ht1 & Hf1 & _).
  assert (Hdone : deref (on_success r st1) r =
                  Some (with_inProgress false (with_completed true s))).
  { unfold on_success, deref in *. cbn.
    rewrite !list_lookup_alter_eq, Hd1. cbn. by rewrite Hd. }
  split; [done|].
  intros es st2 Hrun. eapply not_run_run; [by rewrite Hdone| |exact Hrun].
  by apply not_run_refl.
Qed.

Lemma successful_task_completed_witness :
  ∃ st st',
    run [CallStoreAccessKey "sub_1" "k1";
         CallScheduleRefresh "sub_1" 1000 "pre-expiration";
         Tick 1000; Fire 0%nat] (fresh empty_storage 0) = Some st ∧
    step (Settle 0%nat (PurchasesBody true [] None)) st = Some st' ∧
    completed <$> deref st' 0%nat = Some true.
Proof.
  eexists. eexists. split; [vm_compute; reflexivity|].
  match goal with
  | |- step _ ?st = _ ∧ _ =>
      destruct (successful_task_completed st 0%nat
                  (with_inProgress true (new_schedule "sub_1" 1000 "pre-expiration"))
                  [] None)
        as (st' & Hstep & H & _)
  end.
  - exists empty_storage, 0,
      [CallStoreAccessKey "sub_1" "k1";
       CallScheduleRefresh "sub_1" 1000 "pre-expiration";
       Tick 1000; Fire 0%nat].
    vm_compute. reflexivity.
  - reflexivity.
  - apply list_elem_of_here.
  - vm_compute in Hstep. injection Hstep as <-.
    split; [vm_compute; reflexivity|]. by rewrite H.
Defined.

(** ** Runs without a reset, on an example *)

Lemma exclusive_without_reset_witness :
  ∃ st,
    run [CallStoreAccessKey "sub_1" "k1";
         CallScheduleRefresh "sub_1" 1000 "pre-expiration";
         CallScheduleRefresh "sub_1" 2000 "post-expiration";
         Tick 1000; Fire 0%nat; Tick 1000; Fire 1%nat]
      (fresh empty_storage 0) = Some st ∧
    all_listed st ∧ exclusive st.
Proof.
  eexists. split; [vm_compute; reflexivity|].
  refine (exclusive_without_reset empty_storage 0
            [CallStoreAccessKey "sub_1" "k1";
             CallScheduleRefresh "sub_1" 1000 "pre-expiration";
             CallScheduleRefresh "sub_1" 2000 "post-expiration";
             Tick 1000; Fire 0%nat; Tick 1000; Fire 1%nat] _ _ _).
  - reflexivity.
  - vm_compute. reflexivity.
Defined.

Lemma fire_skipped_witness :
  ∃ st,
    run [CallStoreAccessKey "sub_1" "k1";
         CallScheduleRefresh "sub_1" 1000 "pre-expiration";
         CallScheduleRefresh "sub_1" 2000 "post-expiration";
         Tick 1000; Fire 0%nat; Tick 1000]
      (fresh empty_storage 0) = Some st ∧
    step (Fire 1%nat) st =
      Some (log (ObsSkip 1) (with_timers (remove 1%nat (timers st)) st)).
Proof.
  eexists. split; [vm_compute; reflexivity|].
  refine (fire_skipped 1%nat 0%nat
            (new_schedule "sub_1" 2000 "post-expiration")
            (with_inProgress true (new_schedule "sub_1" 1000 "pre-expiration"))
            _ _ _ _ _ _ _ _ _).
  - reflexivity.
  - apply list_elem_of_here.
  - reflexivity.
  - cbn. lia.
  - reflexivity.
  - reflexivity.
  - reflexivity.
  - reflexivity.
Defined.

(** ** What every reachable state satisfies *)

(** X14. In every state the page reaches: no two tasks of the schedule list
    have the same id; every task of the list, every armed timer and every
    pending request belongs to an existing task; and a task that waits for
    its response has no armed timer and is not completed. *)
Theorem reachable_schedule_consistent st :
  reachable st →
  NoDup (ids st) ∧
  (∀ r, r ∈ schedules st ∨ r ∈ timers st ∨ r ∈ inflight st → is_Some (deref st r)) ∧
  (∀ r s, r ∈ inflight st → deref st r = Some s →
          (r ∉ timers st) ∧ completed s = false).
Proof.
  intros Hr. apply reachable_wf in Hr. destruct Hr as [W1 W2 W3 W4 W5].
  rewrite Forall_forall in W1, W2, W3. split_and!.
  - done.
  - intros r [H|[H|H]]; apply lookup_lt_is_Some; auto.
  - intros r s Hin Hd. destruct (W5 r Hin) as (Hnt & s' & Hd' & Hc & _).
    rewrite Hd in Hd'. by simplify_eq.
Qed.

Lemma reachable_schedule_consistent_witness :
  ∃ st,
    run [CallStoreAccessKey "sub_1" "k1";
         CallScheduleRefresh "sub_1" 1000 "pre-expiration";
         CallScheduleRefresh "sub_1" 1000 "again";
         CallScheduleRefresh "sub_1" 2000 "post-expiration";
         Tick 1000; Fire 0%nat]
      (fresh empty_storage 0) = Some st ∧
    NoDup (ids st).
Proof.
  eexists. split; [vm_compute; reflexivity|].
  refine (proj1 (reachable_schedule_consistent _ _)).
  exists empty_storage, 0,
    [CallStoreAccessKey "sub_1" "k1";
     CallScheduleRefresh "sub_1" 1000 "pre-expiration";
     CallScheduleRefresh "sub_1" 1000 "again";
     CallScheduleRefresh "sub_1" 2000 "post-expiration";
     Tick 1000; Fire 0%nat].
  vm_compute. reflexivity.
Defined.

(** ** Billing periods *)

Lemma is_unit_not_digit u : is_unit u = true → is_digit u = false.
Proof.
  destruct u as [[] [] [] [] [] [] [] []]; cbn; intros H; try done.
Qed.

Lemma span_digits_run ds u rest :
  all_digits ds = true → is_digit u = false →
  span_digits (ds +:+ String u rest) = (ds, String u rest).
Proof.
  intros Hd Hu. induction ds as [|c ds IH].
  - change ("" +:+ String u rest) with (String u rest).
    cbn [span_digits]. by rewrite Hu.
  - change (String c ds +:+ String u rest)
      with (String c (ds +:+ String u rest)).
    cbn [all_digits] in Hd. apply andb_true_iff in Hd as [Hc Hd].
    cbn [span_digits]. rewrite Hc, (IH Hd). done.
Qed.

Lemma period_match_duration ds u rest :
  all_digits ds = true → ds ≠ "" → is_unit u = true →
  period_match ("P" +:+ ds +:+ String u rest) = Some (ds, u).
Proof.
  intros Hd Hne Hu.
  assert (H : match_here ("P" +:+ ds +:+ String u rest) = Some (ds, u)).
  { change ("P" +:+ ds +:+ String u rest)
      with (String "P"%char (ds +:+ String u rest)).
    cbn [match_here].
    rewrite (span_digits_run ds u rest Hd (is_unit_not_digit u Hu)).
    destruct ds as [|c ds]; [done|]. by rewrite Hu. }
  revert H.
  change ("P" +:+ ds +:+ String u rest)
    with (String "P"%char (ds +:+ String u rest)).
  intros H. cbn [period_match]. by rewrite H.
Qed.

(** X15. An ISO 8601 duration of one unit is put in words: for a non-empty
    string of digits [n] and whatever follows the unit,
    [formatBillingPeriodEN] of P[n]Y is "Yearly" when [n] is "1" and
    "Every [n] years" otherwise, and likewise "Monthly"/"months" for M,
    "Weekly"/"weeks" for W and "Daily"/"days" for D. *)
Theorem formatBillingPeriodEN_duration ds rest :
  all_digits ds = true → ds ≠ "" →
  formatBillingPeriodEN (Some ("P" +:+ ds +:+ "Y" +:+ rest)) =
    (if bool_decide (ds = "1") then "Yearly" else "Every " +:+ ds +:+ " years") ∧
  formatBillingPeriodEN (Some ("P" +:+ ds +:+ "M" +:+ rest)) =
    (if bool_decide (ds = "1") then "Monthly" else "Every " +:+ ds +:+ " months") ∧
  formatBillingPeriodEN (Some ("P" +:+ ds +:+ "W" +:+ rest)) =
    (if bool_decide (ds = "1") then "Weekly" else "Every " +:+ ds +:+ " weeks") ∧
  formatBillingPeriodEN (Some ("P" +:+ ds +:+ "D" +:+ rest)) =
    (if bool_decide (ds = "1") then "Daily" else "Every " +:+ ds +:+ " days").
Proof.
  intros Hd Hne.
  assert (Ht : ∀ x, truthy (Some ("P" +:+ x)) = true) by done.
  split_and!; unfold formatBillingPeriodEN; rewrite Ht.
  - change ("P" +:+ ds +:+ "Y" +:+ rest)
      with ("P" +:+ ds +:+ String "Y"%char rest).
    rewrite (period_match_duration ds "Y"%char rest Hd Hne eq_refl).
    by case_bool_decide.
  - change ("P" +:+ ds +:+ "M" +:+ rest)
      with ("P" +:+ ds +:+ String "M"%char rest).
    rewrite (period_match_duration ds "M"%char rest Hd Hne eq_refl).
    by case_bool_decide.
  - change ("P" +:+ ds +:+ "W" +:+ rest)
      with ("P" +:+ ds +:+ String "W"%char rest).
    rewrite (period_match_duration ds "W"%char rest Hd Hne eq_refl).
    by case_bool_decide.
  - change ("P" +:+ ds +:+ "D" +:+ rest)
      with ("P" +:+ ds +:+ String "D"%char rest).
    rewrite (period_match_duration ds "D"%char rest Hd Hne eq_refl).
    by case_bool_decide.
Qed.

Lemma formatBillingPeriodEN_duration_witness :
  formatBillingPeriodEN (Some "P1M") = "Monthly" ∧
  formatBillingPeriodEN (Some "P12W and more") = "Every 12 weeks".
Proof.
  split.
  - exact (proj1 (proj2 (formatBillingPeriodEN_duration "1" "" eq_refl
                           ltac:(discriminate)))).
  - exact (proj1 (proj2 (proj2 (formatBillingPeriodEN_duration "12" " and more"
                                  eq_refl ltac:(discriminate))))).
Defined.

Lemma period_match_no_P s : occurs "P" s = false → period_match s = None.
Proof.
  induction s as [|c s IH]; [done|]. cbn [occurs]. intros H.
  apply orb_false_iff in H as [Hc Hs]. apply bool_decide_eq_false in Hc.
  cbn [period_match].
  assert (Hm : match_here (String c s) = None).
  { unfold match_here. destruct c as [[] [] [] [] [] [] [] []]; try done. }
  rewrite Hm. by apply IH.
Qed.

(** X16. The two formatters of billing periods, [formatBillingPeriodEN] of
    the class and [formatBillingPeriod] of the page script, give the same
    text for every string; and a string without the letter P is returned as
    it is. *)
Theorem formatBillingPeriod_agree s :
  formatBillingPeriod s = formatBillingPeriodEN (Some s) ∧
  (occurs "P" s = false → formatBillingPeriodEN (Some s) = s).
Proof.
  assert (Hagree : formatBillingPeriod s = formatBillingPeriodEN (Some s)).
  { unfold formatBillingPeriod, formatBillingPeriodEN.
    destruct (truthy (Some s)) eqn:Ht.
    - destruct (period_match s) as [[count u]|]; [|done].
      destruct u as [[] [] [] [] [] [] [] []]; try done;
        by case_bool_decide.
    - destruct s; [done|]. cbn in Ht.
      by rewrite bool_decide_eq_false_2 in Ht. }
  split; [done|].
  intros H. rewrite <- Hagree. unfold formatBillingPeriod.
  by rewrite (period_match_no_P s H).
Qed.

Lemma formatBillingPeriod_agree_witness :
  formatBillingPeriodEN (Some "lifetime") = "lifetime".
Proof.
  exact (proj2 (formatBillingPeriod_agree "lifetime") eq_refl).
Defined.

(** ** Return URLs of the page *)

Lemma before_hash_app base rest :
  before_hash (before_hash base +:+ "#" +:+ rest) = before_hash base.
Proof.
  induction base as [|c base IH]; [done|].
  cbn [before_hash]. case_bool_decide as Hc; [done|].
  change (String c (before_hash base) +:+ "#" +:+ rest)
    with (String c (before_hash base +:+ "#" +:+ rest)).
  cbn [before_hash]. rewrite bool_decide_eq_false_2 by done. by rewrite IH.
Qed.

(** X17. [returnUrl] replaces the fragment of the location and does not pile
    fragments up: the return URL computed at a location that is itself a
    return URL is the one computed at the original location, and the part
    before "#" never contains a "#". *)
Theorem returnUrl_replaces_hash href h1 h2 :
  returnUrl (returnUrl href h1) h2 = returnUrl href h2 ∧
  occurs "#" (before_hash href) = false.
Proof.
  split.
  - unfold returnUrl. by rewrite before_hash_app.
  - induction href as [|c href IH]; [done|].
    cbn [before_hash]. case_bool_decide as Hc; [done|].
    cbn [occurs]. by rewrite bool_decide_eq_false_2, IH.
Qed.

(** ** The constructor *)

Lemma endsWith_app u p : endsWith (u +:+ p) p = true.
Proof.
  induction u as [|c u IH].
  - change ("" +:+ p) with p. destruct p; cbn; by rewrite bool_decide_eq_true_2.
  - change (String c u +:+ p) with (String c (u +:+ p)).
    cbn [endsWith]. rewrite IH. apply orb_true_r.
Qed.

Lemma slice_0_minus1_app u c : slice_0_minus1 (u +:+ String c "") = u.
Proof.
  induction u as [|c0 u IH]; [done|].
  change (String c0 u +:+ String c "") with (String c0 (u +:+ String c "")).
  cbn [slice_0_minus1]. rewrite IH.
  destruct u; done.
Qed.

(** X18. The constructor accepts a configuration exactly when the Stripe
    public key, the app name and the API key are all given and non-empty; a
    missing Stripe key is the error reported first. For a custom URL that
    does not end with "/", configuring it with or without one trailing "/"
    gives the same base URL, the one without. *)
Theorem constructor_validates config :
  ((∃ client, constructor config = Return client) ↔
   truthy (stripePublicKey config) = true ∧ truthy (appName config) = true ∧
   truthy (apiKey config) = true) ∧
  (truthy (stripePublicKey config) = false →
   constructor config = Throw "Missing required Stripe public key") ∧
  (∀ u client,
     u ≠ "" → endsWith u "/" = false →
     (customIapticUrl config = Some u ∨ customIapticUrl config = Some (u +:+ "/")) →
     constructor config = Return client → iapticUrl client = u).
Proof.
  unfold constructor. split_and!.
  - destruct (truthy (stripePublicKey config)), (truthy (appName config)),
      (truthy (apiKey config)); cbn; split; try (intros [c H]; done);
      try (intros (? & ? & ?); done); eauto.
  - by intros ->.
  - intros u client Hu Hends Hcustom.
    destruct (truthy (stripePublicKey config)), (truthy (appName config)),
      (truthy (apiKey config)); cbn; try done.
    intros H. simplify_eq. cbn.
    destruct Hcustom as [-> | ->].
    + unfold js_or. rewrite (truthy_Some u Hu). cbn. by rewrite Hends.
    + assert (Hne : u +:+ "/" ≠ "") by (by destruct u).
      unfold js_or. rewrite (truthy_Some _ Hne). cbn [default].
      unfold Datatypes.id. by rewrite endsWith_app, slice_0_minus1_app.
Qed.

Lemma constructor_validates_witness :
  ∃ client,
    constructor {| stripePublicKey := Some "pk_test"; appName := Some "app";
                   apiKey := Some "key"; customIapticUrl := Some "https://host/" |}
      = Return client ∧
    iapticUrl client = "https://host".
Proof.
  eexists. split; [reflexivity|].
  refine (proj2 (proj2 (constructor_validates
                          {| stripePublicKey := Some "pk_test"; appName := Some "app";
                             apiKey := Some "key";
                             customIapticUrl := Some "https://host/" |}))
            "https://host" _ _ _ _ _).
  - discriminate.
  - reflexivity.
  - right. reflexivity.
  - reflexivity.
Defined.

(** ** From a rotated subscription key to the next lookup *)

Lemma subscription_storeAccessKey ident accessKey st :
  getSubscriptionId (_storeAccessKey ident accessKey st) =
  if startsWith ident "sub_" then Some ident else getSubscriptionId st.
Proof. unfold _storeAccessKey. by destruct (startsWith ident "sub_"). Qed.

Lemma subscription_foldl_other (entries : list (string * string)) st :
  Forall (λ e, startsWith e.1 "sub_" = false) entries →
  getSubscriptionId
    (foldl (λ s '(subId, newKey), _storeAccessKey subId newKey s) st entries) =
  getSubscriptionId st.
Proof.
  revert st. induction entries as [|[i k] entries IH]; intros st Hall; [done|].
  apply Forall_cons in Hall as [Hi Hall]. cbn [fst] in Hi. cbn [foldl].
  rewrite IH by done. by rewrite subscription_storeAccessKey, Hi.
Qed.

Lemma foldl_store_app (l1 l2 : list (string * string)) st :
  foldl (λ s '(subId, newKey), _storeAccessKey subId newKey s) st (l1 ++ l2) =
  foldl (λ s '(subId, newKey), _storeAccessKey subId newKey s)
    (foldl (λ s '(subId, newKey), _storeAccessKey subId newKey s) st l1) l2.
Proof. apply foldl_app. Qed.

(** X19. After a purchase lookup whose response rotates in access keys, the
    last entry whose id starts with "sub_" becomes the current subscription:
    [getPurchases()] called without arguments then asks for that
    subscription id with its new key (the key being non-empty and the ids of
    the entries distinct), whatever session is stored. *)
Theorem rotated_subscription_key_is_used st purchases before after i k :
  NoDup (before ++ (i, k) :: after).*1 →
  startsWith i "sub_" = true → k ≠ "" →
  Forall (λ e, startsWith e.1 "sub_" = false) after →
  let r := getPurchases_end
             (PurchasesBody true purchases (Some (before ++ (i, k) :: after))) st in
  getSubscriptionId r.2 = Some i ∧
  getPurchases_begin None None r.2 =
    (Awaiting, log (ObsFetch (GetPurchases i k)) r.2).
Proof.
  intros Hnd Hsub Hk Hafter. cbv zeta.
  assert (Hi : i ≠ "") by (by intros ->).
  set (st' := (getPurchases_end
                 (PurchasesBody true purchases (Some (before ++ (i, k) :: after)))
                 st).2).
  assert (Hptr : getSubscriptionId st' = Some i).
  { unfold st'. cbn [getPurchases_end snd]. rewrite foldl_store_app. cbn [foldl].
    rewrite subscription_foldl_other by done.
    by rewrite subscription_storeAccessKey, Hsub. }
  assert (Hkey : getAccessKey (Some i) st' = Some (Str k)).
  { apply getAccessKey_own_key; try done. unfold st'. cbn [getPurchases_end snd].
    apply storedKeys_foldl_entry; [done| |by apply sub_not_proto].
    apply elem_of_app. right. apply list_elem_of_here. }
  assert (Hid : js_or (getSubscriptionId st') (getSessionId st') = Some i).
  { rewrite Hptr. unfold js_or. by rewrite (truthy_Some i Hi). }
  split; [done|].
  unfold getPurchases_begin. cbn [truthy]. cbv iota.
  rewrite Hid, Hkey. by rewrite (truthy_Some i Hi), (truthy_value_Str k Hk).
Qed.

Lemma rotated_subscription_key_is_used_witness :
  let st := _storeAccessKey "cs_1" "k1" (_setSessionId "cs_1" (fresh empty_storage 0)) in
  let r := getPurchases_end (PurchasesBody true [] (Some [("sub_1", "k2")])) st in
  getPurchases_begin None None r.2 =
    (Awaiting, log (ObsFetch (GetPurchases "sub_1" "k2")) r.2).
Proof.
  cbv zeta.
  refine (proj2 (rotated_subscription_key_is_used _ [] [] [] "sub_1" "k2" _ _ _ _)).
  - cbn. apply NoDup_singleton.
  - reflexivity.
  - discriminate.
  - constructor.
Defined.
